(** * Background worker: proactive replies and unread bookkeeping

    A shallow embedding of [background-worker.js] and the properties of its
    unread ledger, eligibility scan, trigger guard and reply parsing.

    Conventions of the embedding.
    - A JavaScript string is the list of its UTF-16 code units.
    - Data coming back from the completion service is untyped JSON
      ([json]); property access, truthiness and [ToString] follow
      ECMAScript on it.  A JSON number is carried as its literal: the worker
      never computes with a number of a response.
    - The application's own stores ([contacts], [chatSettings], [chats],
      [unreadCounts]) are typed by their schema; objects used as
      dictionaries are finite maps, timestamps and counts are integers.
      Serialising a store with [JSON.stringify] and reading it back with
      [JSON.parse] is the identity on such data and is not spelled out.
    - A finite map is the object of the code for an id that names no
      property inherited from [Object.prototype], and an integer is the
      number of the code up to 2^53.  Module [Precise] embeds the unread
      ledger and the lookup of the transcript in [callGlobalAiApi] beyond
      both limits: own and inherited properties, sums rounded to doubles.
      The statements about the ledger for every id and every count are
      made there, and the two embeddings are shown to agree inside the
      limits.
    - An [async] function is cut at its [await] on the network: the part
      before it, and the part resumed with the outcome of the request. *)

From Stdlib Require Import ZArith NArith Ascii String List Lia Permutation.
From stdpp Require Import base option list gmap strings.

Set Warnings "-register-all,-unused-pattern-matching-variable".
Local Open Scope Z_scope.

(** ** JavaScript values *)

Definition jsstring := list N.

(** The code units of an ASCII literal. *)
Definition js (s : string) : jsstring :=
  map N_of_ascii (list_ascii_of_string s).

Definition jsstring_eqb (a b : jsstring) : bool := bool_decide (a = b).

Inductive json :=
| JNull
| JBool (b : bool)
| JNum (literal : jsstring)
| JStr (s : jsstring)
| JArr (elems : list json)
| JObj (members : list (jsstring * json)).

(** A JavaScript value that came out of JSON data: [None] is [undefined]. *)
Definition jsval := option json.

Inductive exn :=
| SyntaxError
| TypeError
| NetworkError
| Error (message : jsstring).

Inductive completion (A : Type) :=
| Normal (a : A)
| Throw (e : exn).
Arguments Normal {A} a.
Arguments Throw {A} e.

Module JS.

(** [WhiteSpace] and [LineTerminator] code points, stripped by
    [String.prototype.trim]. *)
Definition is_whitespace (c : N) : bool :=
  ((c =? 9) || (c =? 10) || (c =? 11) || (c =? 12) || (c =? 13) || (c =? 32)
   || (c =? 160) || (c =? 5760) || ((8192 <=? c) && (c <=? 8202))
   || (c =? 8232) || (c =? 8233) || (c =? 8239) || (c =? 8287)
   || (c =? 12288) || (c =? 65279))%N.

Fixpoint trimStart (s : jsstring) : jsstring :=
  match s with
  | c :: r => if is_whitespace c then trimStart r else s
  | [] => []
  end.

Definition trimEnd (s : jsstring) : jsstring := rev (trimStart (rev s)).

Definition trim (s : jsstring) : jsstring := trimEnd (trimStart s).

(** A number literal denotes zero when its mantissa has no other digit. *)
Fixpoint mantissa_zero (lit : jsstring) : bool :=
  match lit with
  | [] => true
  | c :: r =>
      if ((c =? 101) || (c =? 69))%N then true
      else if ((49 <=? c) && (c <=? 57))%N then false
      else mantissa_zero r
  end.

(** [ToBoolean]. *)
Definition truthy (v : jsval) : bool :=
  match v with
  | None | Some JNull => false
  | Some (JBool b) => b
  | Some (JNum lit) => negb (mantissa_zero lit)
  | Some (JStr s) => negb (jsstring_eqb s [])
  | Some (JArr _) | Some (JObj _) => true
  end.

(** [a || b]. *)
Definition or_else (a b : jsval) : jsval := if truthy a then a else b.

Definition isArray (v : jsval) : bool :=
  match v with Some (JArr _) => true | _ => false end.

(** The own property [key] of an object built by [JSON.parse]: of two
    members with the same key the later one wins. *)
Fixpoint lookup_member (key : jsstring) (ms : list (jsstring * json)) : jsval :=
  match ms with
  | [] => None
  | (k, v) :: r =>
      match lookup_member key r with
      | Some v' => Some v'
      | None => if jsstring_eqb k key then Some v else None
      end
  end.

Definition digit_value (c : N) : option nat :=
  if ((48 <=? c) && (c <=? 57))%N then Some (N.to_nat (c - 48)) else None.

Fixpoint digits_value (acc : nat) (s : jsstring) : option nat :=
  match s with
  | [] => Some acc
  | c :: r =>
      match digit_value c with
      | Some d => digits_value (10 * acc + d)%nat r
      | None => None
      end
  end.

(** A canonical array index: decimal digits without a leading zero. *)
Definition array_index (key : jsstring) : option nat :=
  match key with
  | [] => None
  | [c] => digit_value c
  | c :: r => if (c =? 48)%N then None else digits_value 0 key
  end.

(** [v[key]] or [v.key], for the keys the worker reads ([choices], [0],
    [message], [content], [replies], [error]): none of them names an
    inherited property, so only own properties are modelled. *)
Definition getProp (v : jsval) (key : jsstring) : completion jsval :=
  match v with
  | None | Some JNull => Throw TypeError
  | Some (JObj ms) => Normal (lookup_member key ms)
  | Some (JArr l) =>
      Normal (match array_index key with Some i => nth_error l i | None => None end)
  | Some (JStr s) =>
      Normal (match array_index key with
              | Some i => match nth_error s i with
                          | Some c => Some (JStr [c])
                          | None => None
                          end
              | None => None
              end)
  | Some (JBool _) | Some (JNum _) => Normal None
  end.

(** [v?.key]. *)
Definition getPropOpt (v : jsval) (key : jsstring) : completion jsval :=
  match v with
  | None | Some JNull => Normal None
  | _ => getProp v key
  end.

Definition join_with (sep : jsstring) (parts : list jsstring) : jsstring :=
  match parts with
  | [] => []
  | p :: r => p ++ concat (map (fun x => sep ++ x) r)
  end.

(** [ToString] on JSON data.  A number prints as the literal it was read
    from; an array joins its elements with commas, [null] elements giving
    the empty string; an object prints as [[object Object]]. *)
Fixpoint ToString_json (v : json) : jsstring :=
  match v with
  | JNull => js "null"
  | JBool true => js "true"
  | JBool false => js "false"
  | JNum lit => lit
  | JStr s => s
  | JArr l =>
      join_with (js ",")
        (map (fun e => match e with JNull => [] | _ => ToString_json e end) l)
  | JObj _ => js "[object Object]"
  end.

Definition ToString (v : jsval) : jsstring :=
  match v with
  | None => js "undefined"
  | Some j => ToString_json j
  end.

End JS.

(** ** [JSON.parse] *)

Module JSON.

Definition is_ws (c : N) : bool :=
  ((c =? 9) || (c =? 10) || (c =? 13) || (c =? 32))%N.

Fixpoint skip_ws (s : jsstring) : jsstring :=
  match s with
  | c :: r => if is_ws c then skip_ws r else s
  | [] => []
  end.

Definition is_digit (c : N) : bool := ((48 <=? c) && (c <=? 57))%N.

Definition hex_value (c : N) : option N :=
  if ((48 <=? c) && (c <=? 57))%N then Some (c - 48)%N
  else if ((97 <=? c) && (c <=? 102))%N then Some (c - 87)%N
  else if ((65 <=? c) && (c <=? 70))%N then Some (c - 55)%N
  else None.

Definition hex4 (a b c d : N) : option N :=
  match hex_value a, hex_value b, hex_value c, hex_value d with
  | Some x, Some y, Some z, Some w => Some (((x * 16 + y) * 16 + z) * 16 + w)%N
  | _, _, _, _ => None
  end.

Definition unescape (c : N) : option N :=
  if (c =? 34)%N then Some 34%N
  else if (c =? 92)%N then Some 92%N
  else if (c =? 47)%N then Some 47%N
  else if (c =? 98)%N then Some 8%N
  else if (c =? 102)%N then Some 12%N
  else if (c =? 110)%N then Some 10%N
  else if (c =? 114)%N then Some 13%N
  else if (c =? 116)%N then Some 9%N
  else None.

(** The characters of a string after its opening quote, up to and
    including the closing one. *)
Fixpoint string_body (acc : jsstring) (s : jsstring) : option (jsstring * jsstring) :=
  match s with
  | [] => None
  | c :: r =>
      if (c =? 34)%N then Some (rev acc, r)
      else if (c =? 92)%N then
        match r with
        | e :: r1 =>
            if (e =? 117)%N then
              match r1 with
              | h1 :: h2 :: h3 :: h4 :: r2 =>
                  match hex4 h1 h2 h3 h4 with
                  | Some u => string_body (u :: acc) r2
                  | None => None
                  end
              | _ => None
              end
            else
              match unescape e with
              | Some u => string_body (u :: acc) r1
              | None => None
              end
        | [] => None
        end
      else if (c <? 32)%N then None
      else string_body (c :: acc) r
  end.

Fixpoint span_digits (s : jsstring) : jsstring * jsstring :=
  match s with
  | c :: r =>
      if is_digit c then let '(d, r') := span_digits r in (c :: d, r')
      else ([], s)
  | [] => ([], [])
  end.

(** A number literal: an optional minus sign, an integer part without a
    leading zero, an optional fraction and an optional exponent. *)
Definition number_literal (s : jsstring) : option (jsstring * jsstring) :=
  let '(sign, s1) :=
    match s with
    | c :: r => if (c =? 45)%N then ([c], r) else ([], s)
    | [] => ([], s)
    end in
  let '(int, s2) := span_digits s1 in
  let int_ok :=
    match int with
    | [] => false
    | [_] => true
    | c :: _ => negb (c =? 48)%N
    end in
  if negb int_ok then None else
  let frac :=
    match s2 with
    | c :: r =>
        if (c =? 46)%N then
          let '(d, r') := span_digits r in
          match d with [] => None | _ => Some (c :: d, r') end
        else Some ([], s2)
    | [] => Some ([], s2)
    end in
  match frac with
  | None => None
  | Some (fr, s3) =>
      let exp :=
        match s3 with
        | c :: r =>
            if ((c =? 101) || (c =? 69))%N then
              let '(sg, r1) :=
                match r with
                | c1 :: r' =>
                    if ((c1 =? 43) || (c1 =? 45))%N then ([c1], r') else ([], r)
                | [] => ([], r)
                end in
              let '(d, r2) := span_digits r1 in
              match d with [] => None | _ => Some (c :: sg ++ d, r2) end
            else Some ([], s3)
        | [] => Some ([], s3)
        end in
      match exp with
      | None => None
      | Some (ex, s4) => Some (sign ++ int ++ fr ++ ex, s4)
      end
  end.

Fixpoint strip_prefix (p s : jsstring) : option jsstring :=
  match p, s with
  | [], _ => Some s
  | a :: p', b :: s' => if (a =? b)%N then strip_prefix p' s' else None
  | _ :: _, [] => None
  end.

(** Recursive descent over the JSON grammar, on [fuel].  A call uses up
    text before it recurses a second time, so twice the length of the text
    is fuel enough ([parse_fuel_enough] below). *)
Fixpoint value (fuel : nat) (s : jsstring) : option (json * jsstring) :=
  match fuel with
  | O => None
  | S fuel =>
      match skip_ws s with
      | [] => None
      | c :: r =>
          if (c =? 123)%N then
            match skip_ws r with
            | c1 :: r1 =>
                if (c1 =? 125)%N then Some (JObj [], r1)
                else members fuel [] (c1 :: r1)
            | [] => None
            end
          else if (c =? 91)%N then
            match skip_ws r with
            | c1 :: r1 =>
                if (c1 =? 93)%N then Some (JArr [], r1)
                else elements fuel [] (c1 :: r1)
            | [] => None
            end
          else if (c =? 34)%N then
            match string_body [] r with
            | Some (str, r1) => Some (JStr str, r1)
            | None => None
            end
          else if (c =? 116)%N then
            match strip_prefix (js "rue") r with
            | Some r1 => Some (JBool true, r1)
            | None => None
            end
          else if (c =? 102)%N then
            match strip_prefix (js "alse") r with
            | Some r1 => Some (JBool false, r1)
            | None => None
            end
          else if (c =? 110)%N then
            match strip_prefix (js "ull") r with
            | Some r1 => Some (JNull, r1)
            | None => None
            end
          else
            match number_literal (c :: r) with
            | Some (lit, r1) => Some (JNum lit, r1)
            | None => None
            end
      end
  end
with elements (fuel : nat) (acc : list json) (s : jsstring)
  : option (json * jsstring) :=
  match fuel with
  | O => None
  | S fuel =>
      match value fuel s with
      | Some (v, r) =>
          match skip_ws r with
          | c :: r1 =>
              if (c =? 44)%N then elements fuel (v :: acc) r1
              else if (c =? 93)%N then Some (JArr (rev (v :: acc)), r1)
              else None
          | [] => None
          end
      | None => None
      end
  end
with members (fuel : nat) (acc : list (jsstring * json)) (s : jsstring)
  : option (json * jsstring) :=
  match fuel with
  | O => None
  | S fuel =>
      match skip_ws s with
      | c :: r =>
          if (c =? 34)%N then
            match string_body [] r with
            | Some (key, r1) =>
                match skip_ws r1 with
                | c2 :: r2 =>
                    if (c2 =? 58)%N then
                      match value fuel r2 with
                      | Some (v, r3) =>
                          match skip_ws r3 with
                          | c4 :: r4 =>
                              if (c4 =? 44)%N then members fuel ((key, v) :: acc) r4
                              else if (c4 =? 125)%N
                                   then Some (JObj (rev ((key, v) :: acc)), r4)
                                   else None
                          | [] => None
                          end
                      | None => None
                      end
                    else None
                | [] => None
                end
            | None => None
            end
          else None
      | [] => None
      end
  end.

(** [JSON.parse(text)]: the value, or a [SyntaxError]. *)
Definition parse (text : jsstring) : completion json :=
  match value (2 * length text + 2) text with
  | Some (v, r) =>
      match skip_ws r with
      | [] => Normal v
      | _ :: _ => Throw SyntaxError
      end
  | None => Throw SyntaxError
  end.

End JSON.

(** ** The stores of the application *)

Module Contact.
Record t := mk {
  id : jsstring;
  name : option jsstring;
  persona : option jsstring;
  note : option jsstring }.
End Contact.

Module Settings.
Record t := mk { proactive : bool }.
End Settings.

Module Message.
(** [id] is [Date.now() + Math.random()]: the time and the index of the
    draw stand for the sum. *)
Record t := mk {
  id : Z * nat;
  role : jsstring;
  content : jsval;
  timestamp : Z }.
End Message.

(** [localStorage], one field per key the worker uses; [None] is an absent
    key ([getItem] gives [null]). *)
Record LocalStorage := mkLocalStorage {
  unreadCounts : option (gmap jsstring Z);
  chatSettings : option (gmap jsstring Settings.t);
  contacts : option (list Contact.t);
  chats : option (gmap jsstring (list Message.t));
  apiUrl : option jsstring;
  apiKey : option jsstring;
  selectedModel : option jsstring;
  user_persona : option jsstring;
  temperature : option jsstring }.

Definition set_unreadCounts (v : gmap jsstring Z) (ls : LocalStorage) :=
  mkLocalStorage (Some v) (chatSettings ls) (contacts ls) (chats ls)
    (apiUrl ls) (apiKey ls) (selectedModel ls) (user_persona ls) (temperature ls).

Definition set_chats (v : gmap jsstring (list Message.t)) (ls : LocalStorage) :=
  mkLocalStorage (unreadCounts ls) (chatSettings ls) (contacts ls) (Some v)
    (apiUrl ls) (apiKey ls) (selectedModel ls) (user_persona ls) (temperature ls).

(** The page as the worker sees it.  [timers] are the pending [setTimeout]
    callbacks of the worker, each the time it is due and the
    [sessionStorage] key it removes; [clock] is [Date.now()]; [draws]
    counts the calls of [Math.random()]. *)
Record World := mkWorld {
  localStorage : LocalStorage;
  sessionStorage : gmap jsstring jsstring;
  timers : list (Z * jsstring);
  clock : Z;
  hidden : bool;
  draws : nat }.

Definition with_localStorage (f : LocalStorage -> LocalStorage) (w : World) :=
  mkWorld (f (localStorage w)) (sessionStorage w) (timers w) (clock w)
    (hidden w) (draws w).

Definition with_sessionStorage
    (f : gmap jsstring jsstring -> gmap jsstring jsstring) (w : World) :=
  mkWorld (localStorage w) (f (sessionStorage w)) (timers w) (clock w)
    (hidden w) (draws w).

Definition with_timers (f : list (Z * jsstring) -> list (Z * jsstring)) (w : World) :=
  mkWorld (localStorage w) (sessionStorage w) (f (timers w)) (clock w)
    (hidden w) (draws w).

Definition with_clock (t : Z) (w : World) :=
  mkWorld (localStorage w) (sessionStorage w) (timers w) t (hidden w) (draws w).

Definition with_draws (n : nat) (w : World) :=
  mkWorld (localStorage w) (sessionStorage w) (timers w) (clock w) (hidden w) n.

(** Storage accesses, in the order they happen. *)
Inductive event :=
| LsGet (key : jsstring)
| LsSet (key : jsstring)
| SsGet (key : jsstring)
| SsSet (key : jsstring)
| TimerSet (delay : Z) (key : jsstring).

(** ** Synchronous code: state, exceptions and the trace of accesses *)

Definition M (A : Type) : Type := World -> completion A * World * list event.

Definition ret {A} (a : A) : M A := fun w => (Normal a, w, []).

Definition throw {A} (e : exn) : M A := fun w => (Throw e, w, []).

Definition bind {A B} (m : M A) (k : A -> M B) : M B :=
  fun w =>
    match m w with
    | (Normal a, w1, t1) =>
        let '(r, w2, t2) := k a w1 in (r, w2, t1 ++ t2)
    | (Throw e, w1, t1) => (Throw e, w1, t1)
    end.

(** [try { m } catch (e) { h e }]. *)
Definition try_catch {A} (m : M A) (h : exn -> M A) : M A :=
  fun w =>
    match m w with
    | (Normal a, w1, t1) => (Normal a, w1, t1)
    | (Throw e, w1, t1) =>
        let '(r, w2, t2) := h e w1 in (r, w2, t1 ++ t2)
    end.

Definition lift {A} (c : completion A) : M A := fun w => (c, w, []).

Declare Scope worker_scope.
Delimit Scope worker_scope with worker.
Notation "x <- m ;; k" := (bind m (fun x => k))
  (at level 20, m at level 99, k at level 200) : worker_scope.
Notation "m ;; k" := (bind m (fun _ => k))
  (at level 100, k at level 200, right associativity) : worker_scope.
Local Open Scope worker_scope.

(** Exceptions in pure code. *)
Definition cbind {A B} (c : completion A) (k : A -> completion B) : completion B :=
  match c with
  | Normal a => k a
  | Throw e => Throw e
  end.
Notation "x <~ c ;; k" := (cbind c (fun x => k))
  (at level 20, c at level 99, k at level 200) : worker_scope.

Definition ls_getItem {A} (key : string) (field : LocalStorage -> option A)
  : M (option A) :=
  fun w => (Normal (field (localStorage w)), w, [LsGet (js key)]).

Definition ls_setItem (key : string) (upd : LocalStorage -> LocalStorage) : M unit :=
  fun w => (Normal tt, with_localStorage upd w, [LsSet (js key)]).

Definition ss_getItem (key : jsstring) : M (option jsstring) :=
  fun w => (Normal (sessionStorage w !! key), w, [SsGet key]).

Definition ss_setItem (key value : jsstring) : M unit :=
  fun w => (Normal tt, with_sessionStorage (insert key value) w, [SsSet key]).

(** [setTimeout(() => sessionStorage.removeItem(key), delay)]. *)
Definition setTimeout_removeItem (key : jsstring) (delay : Z) : M unit :=
  fun w => (Normal tt, with_timers (fun l => l ++ [(clock w + delay, key)]) w,
            [TimerSet delay key]).

Definition Date_now : M Z := fun w => (Normal (clock w), w, []).

Definition Math_random : M nat :=
  fun w => (Normal (draws w), with_draws (S (draws w)) w, []).

Definition document_hidden : M bool := fun w => (Normal (hidden w), w, []).

(** A string or [null] as a condition: [null] and the empty string are
    falsy. *)
Definition str_truthy (s : option jsstring) : bool :=
  match s with
  | Some (_ :: _) => true
  | _ => false
  end.

(** [s || d] for a string or [null]. *)
Definition str_or (s : option jsstring) (d : jsstring) : jsstring :=
  if str_truthy s then default d s else d.

(** ** The worker *)

Definition PROACTIVE_CHECK_INTERVAL : Z := 15000.
Definition PROACTIVE_REPLY_DELAY : Z := 300000.

(** *** Unread counts *)

Definition getUnreadCounts : M (gmap jsstring Z) :=
  stored <- ls_getItem "unreadCounts" unreadCounts ;;
  ret (default ∅ stored).

Definition saveUnreadCounts (counts : gmap jsstring Z) : M unit :=
  ls_setItem "unreadCounts" (set_unreadCounts counts).

(** [counts[contactId]] as a condition: absent and zero are falsy. *)
Definition count_truthy (c : option Z) : bool :=
  match c with
  | Some n => negb (n =? 0)
  | None => false
  end.

(** [counts[contactId] || 0]. *)
Definition count_or_zero (c : option Z) : Z :=
  if count_truthy c then default 0 c else 0.

(** [messageCount] is [None] when the caller passes no second argument.
    This is line 26 for an id that names no inherited property and a sum up
    to 2^53; [Precise.incrementUnreadCount] is line 26 for every id and
    every count. *)
Definition incrementUnreadCount (contactId : jsstring) (messageCount : option Z)
  : M unit :=
  let messageCount := default 1 messageCount in
  counts <- getUnreadCounts ;;
  let counts := <[contactId := count_or_zero (counts !! contactId) + messageCount]> counts in
  saveUnreadCounts counts.

(** Lines 31 to 38 for an id that names no inherited property, or has a
    key of its own; [Precise.clearUnreadCount] is the same lines for every
    id. *)
Definition clearUnreadCount (contactId : jsstring) : M unit :=
  counts <- getUnreadCounts ;;
  if count_truthy (counts !! contactId) then
    saveUnreadCounts (delete contactId counts)
  else ret tt.

(** *** The request to the completion service *)

Module Request.
(** The system prompt is kept as the values interpolated into its template;
    [temperature] is the text handed to [parseFloat]. *)
Record t := mk {
  url : jsstring;
  authorization : jsstring;
  model : option jsstring;
  charName : jsstring;
  now : Z;
  persona : jsstring;
  userPersona : jsstring;
  note : jsstring;
  history : list (jsstring * jsval);
  temperature : jsstring }.
End Request.

(** What comes back from [fetch] and from reading the body with
    [res.json()].  No store is read or written between the two, so they are
    one step here. *)
Inductive FetchOutcome :=
| Rejected
| Response (ok : bool) (statusText : jsstring) (body : completion json).

(** [hay.includes(needle)]. *)
Fixpoint includes (needle hay : jsstring) : bool :=
  match JSON.strip_prefix needle hay with
  | Some _ => true
  | None =>
      match hay with
      | [] => false
      | _ :: r => includes needle r
      end
  end.

(** [s.replace(/\/$/, '')]. *)
Definition strip_trailing_slash (s : jsstring) : jsstring :=
  match rev s with
  | c :: r => if (c =? 47)%N then rev r else s
  | [] => s
  end.

(** [history.slice(-15)]. *)
Definition slice_last (n : nat) {A} (l : list A) : list A :=
  drop (length l - n) l.

(** [callGlobalAiApi] up to its [fetch], for an id that names no inherited
    property or has a transcript of its own: [allChats[contactId] || []]
    is then the transcript or the empty array.
    [Precise.callGlobalAiApi_request] has the remaining case, in which
    [history.slice] throws. *)
Definition callGlobalAiApi_request (contactId : jsstring) : M Request.t :=
  url <- ls_getItem "apiUrl" apiUrl ;;
  key <- ls_getItem "apiKey" apiKey ;;
  model <- ls_getItem "selectedModel" selectedModel ;;
  if negb (str_truthy url) || negb (str_truthy key) then
    throw (Error (js "API not configured"))
  else
    let url := default [] url in
    let key := default [] key in
    allChats <- ls_getItem "chats" chats ;;
    let allChats := default ∅ allChats in
    let history := default [] (allChats !! contactId) in
    stored <- ls_getItem "contacts" contacts ;;
    let charData :=
      find (fun c => jsstring_eqb (Contact.id c) contactId) (default [] stored) in
    match charData with
    | None => throw (Error (js "Contact with id " ++ contactId ++ js " not found"))
    | Some charData =>
        let persona := str_or (Contact.persona charData) [] in
        let note := str_or (Contact.note charData) [] in
        let charName := str_or (Contact.name charData) (js "Character") in
        userPersona <- ls_getItem "user_persona" user_persona ;;
        let userPersona := str_or userPersona [] in
        now <- Date_now ;;
        let msgsToSend :=
          map (fun m => (Message.role m, Message.content m)) (slice_last 15 history) in
        let fullUrl :=
          if negb (includes (js "/chat/completions") url)
          then strip_trailing_slash url ++ js "/chat/completions"
          else url in
        temp <- ls_getItem "temperature" temperature ;;
        ret (Request.mk fullUrl (js "Bearer " ++ key) model charName now persona
               userPersona note msgsToSend (str_or temp (js "0.9")))
    end.

(** [callGlobalAiApi] from the response on: the raw reply, or the exception
    it throws. *)
Definition callGlobalAiApi_response (o : FetchOutcome) : completion jsval :=
  match o with
  | Rejected => Throw NetworkError
  | Response ok statusText body =>
      if negb ok then
        err <~ body ;;
        e <~ JS.getProp (Some err) (js "error") ;;
        m <~ JS.getPropOpt e (js "message") ;;
        Throw (Error (JS.ToString (JS.or_else m (Some (JStr statusText)))))
      else
        data <~ body ;;
        choices <~ JS.getProp (Some data) (js "choices") ;;
        first <~ JS.getProp choices (js "0") ;;
        message <~ JS.getProp first (js "message") ;;
        JS.getProp message (js "content")
  end.

(** *** Parsing the reply *)

(** The callback [m => m.trim() !== ""]: [trim] exists on strings only. *)
Definition not_blank (m : json) : completion bool :=
  match m with
  | JStr s => Normal (negb (jsstring_eqb (JS.trim s) []))
  | _ => Throw TypeError
  end.

(** [replies.filter(m => m.trim() !== "")]. *)
Fixpoint filter_not_blank (replies : list json) : completion (list json) :=
  match replies with
  | [] => Normal []
  | m :: r =>
      keep <~ not_blank m ;;
      r' <~ filter_not_blank r ;;
      Normal (if keep then m :: r' else r')
  end.

(** The inner [try] of [triggerGlobalAiReply]: the value of [replyMessages]
    after it.  When the body throws nothing has been assigned yet, and the
    handler pushes the raw reply onto the empty list. *)
Definition parseReplies (rawReply : jsval) : list jsval :=
  let body :=
    parsedReply <~ JSON.parse (JS.ToString rawReply) ;;
    isReplies <~ (if JS.truthy (Some parsedReply)
                  then replies <~ JS.getProp (Some parsedReply) (js "replies") ;;
                       Normal (JS.isArray replies)
                  else Normal false) ;;
    if isReplies then
      replies <~ JS.getProp (Some parsedReply) (js "replies") ;;
      match replies with
      | Some (JArr l) => kept <~ filter_not_blank l ;; Normal (map Some kept)
      | _ => Throw TypeError
      end
    else Normal ([] ++ [rawReply]) in
  match body with
  | Normal replyMessages => replyMessages
  | Throw _ => [] ++ [rawReply]
  end.

(** [replyMessages.map(content => ({ id, role, content, timestamp }))]. *)
Fixpoint newMessages (replyMessages : list jsval) : M (list Message.t) :=
  match replyMessages with
  | [] => ret []
  | content :: r =>
      t1 <- Date_now ;;
      rnd <- Math_random ;;
      t2 <- Date_now ;;
      ms <- newMessages r ;;
      ret (Message.mk (t1, rnd) (js "assistant") content t2 :: ms)
  end.

(** Lines 112 to 129: append the replies and count them as unread. *)
Definition appendReplies (contactId : jsstring) (replyMessages : list jsval)
  : M unit :=
  if (0 <? length replyMessages)%nat then
    stored <- ls_getItem "chats" chats ;;
    let allChats := default ∅ stored in
    let allChats :=
      match allChats !! contactId with
      | Some _ => allChats
      | None => <[contactId := []]> allChats
      end in
    ms <- newMessages replyMessages ;;
    let allChats := <[contactId := default [] (allChats !! contactId) ++ ms]> allChats in
    ls_setItem "chats" (set_chats allChats) ;;
    incrementUnreadCount contactId (Some (Z.of_nat (length ms)))
  else ret tt.

(** [triggerGlobalAiReply] up to the [fetch] of [callGlobalAiApi]: the
    request it waits on, or [None] when it has already returned. *)
Definition triggerGlobalAiReply_request (contactId : jsstring)
  : M (option Request.t) :=
  try_catch
    (req <- callGlobalAiApi_request contactId ;; ret (Some req))
    (fun err => ret None).

(** [triggerGlobalAiReply] resumed with the outcome of the request. *)
Definition triggerGlobalAiReply_resume (contactId : jsstring) (o : FetchOutcome)
  : M unit :=
  try_catch
    (rawReply <- lift (callGlobalAiApi_response o) ;;
     appendReplies contactId (parseReplies rawReply))
    (fun err => ret tt).

(** *** The periodic check *)

Definition processingFlag (contactId : jsstring) : jsstring :=
  js "processing_" ++ contactId.

(** Lines 59 to 70: the conditions under which a contact is due. *)
Definition due (allSettings : gmap jsstring Settings.t)
    (allChats : gmap jsstring (list Message.t)) (now : Z)
    (contact : Contact.t) : bool :=
  let contactId := Contact.id contact in
  match allSettings !! contactId with
  | Some settings =>
      if Settings.proactive settings then
        let history := default [] (allChats !! contactId) in
        match last history with
        | None => false
        | Some lastMsg =>
            if negb (jsstring_eqb (Message.role lastMsg) (js "user")) then false
            else now - Message.timestamp lastMsg >? PROACTIVE_REPLY_DELAY
        end
      else false
  | None => false
  end.

(** Lines 74 to 77: the guard. [true] when the contact is admitted. *)
Definition tryAdmit (contactId : jsstring) : M bool :=
  held <- ss_getItem (processingFlag contactId) ;;
  if str_truthy held then ret false
  else ss_setItem (processingFlag contactId) (js "true") ;; ret true.

(** The [finally] of the handler. *)
Definition release_later (contactId : jsstring) : M unit :=
  setTimeout_removeItem (processingFlag contactId) 60000.

(** A run of the handler waiting at [await triggerGlobalAiReply(contactId)]:
    the stores it loaded when it started, the request it waits on and the
    contacts it has not looked at yet. *)
Record Suspended := mkSuspended {
  s_allSettings : gmap jsstring Settings.t;
  s_allChats : gmap jsstring (list Message.t);
  s_contactId : jsstring;
  s_request : Request.t;
  s_rest : list Contact.t }.

(** The [for] loop of the handler, up to its next [await] on the network. *)
Fixpoint scan (allSettings : gmap jsstring Settings.t)
    (allChats : gmap jsstring (list Message.t)) (contacts : list Contact.t)
  : M (option Suspended) :=
  match contacts with
  | [] => ret None
  | contact :: rest =>
      let contactId := Contact.id contact in
      now <- Date_now ;;
      if due allSettings allChats now contact then
        admitted <- tryAdmit contactId ;;
        if admitted then
          req <- try_catch (triggerGlobalAiReply_request contactId)
                   (fun e => ret None) ;;
          match req with
          | Some req =>
              ret (Some (mkSuspended allSettings allChats contactId req rest))
          | None =>
              release_later contactId ;;
              scan allSettings allChats rest
          end
        else scan allSettings allChats rest
      else scan allSettings allChats rest
  end.

(** The callback of [setInterval], up to its first [await] on the network. *)
Definition tick : M (option Suspended) :=
  isHidden <- document_hidden ;;
  if isHidden then ret None
  else
    allSettings <- ls_getItem "chatSettings" chatSettings ;;
    stored <- ls_getItem "contacts" contacts ;;
    allChats <- ls_getItem "chats" chats ;;
    scan (default ∅ allSettings) (default ∅ allChats) (default [] stored).

(** The handler resumed with the outcome of the request it waits on: the
    rest of [triggerGlobalAiReply], the [catch] and [finally] around it, and
    the loop again. *)
Definition resume (s : Suspended) (o : FetchOutcome) : M (option Suspended) :=
  try_catch (triggerGlobalAiReply_resume (s_contactId s) o) (fun e => ret tt) ;;
  release_later (s_contactId s) ;;
  scan (s_allSettings s) (s_allChats s) (s_rest s).

(** ** The page over time *)

Record System := mkSystem {
  world : World;
  running : list Suspended }.

Definition opt_list {A} (o : option A) : list A :=
  match o with Some a => [a] | None => [] end.

(** One step of the page: the interval timer fires, a request comes back, a
    cooldown timer fires, time passes, or the application around the worker
    changes [localStorage] or the visibility.  The guard flags and their
    timers are the worker's own: nothing else writes them. *)
Inductive step : System -> System -> Prop :=
| step_tick sys r w' tr :
    tick (world sys) = (Normal r, w', tr) ->
    step sys (mkSystem w' (running sys ++ opt_list r))
| step_response sys pre s post o r w' tr :
    running sys = pre ++ s :: post ->
    resume s o (world sys) = (Normal r, w', tr) ->
    step sys (mkSystem w' (pre ++ post ++ opt_list r))
| step_timeout sys pre d key post :
    timers (world sys) = pre ++ (d, key) :: post ->
    d <= clock (world sys) ->
    step sys
      (mkSystem
         (with_timers (fun _ => pre ++ post)
            (with_sessionStorage (delete key) (world sys)))
         (running sys))
| step_time sys t :
    clock (world sys) <= t ->
    step sys (mkSystem (with_clock t (world sys)) (running sys))
| step_page sys ls h :
    step sys
      (mkSystem
         (mkWorld ls (sessionStorage (world sys)) (timers (world sys))
            (clock (world sys)) h (draws (world sys)))
         (running sys)).

Inductive steps : System -> System -> Prop :=
| steps_refl sys : steps sys sys
| steps_step sys1 sys2 sys3 : steps sys1 sys2 -> step sys2 sys3 -> steps sys1 sys3.

(** A page that has just loaded the worker: nothing waits, no timer is
    pending. *)
Definition initial (sys : System) : Prop :=
  running sys = [] /\ timers (world sys) = [].

Definition reachable (sys : System) : Prop :=
  exists sys0, initial sys0 /\ steps sys0 sys.

(** The guard flag of a contact, as the handler tests it. *)
Definition flag_set (w : World) (key : jsstring) : bool :=
  str_truthy (sessionStorage w !! key).

Definition in_flight (sys : System) : list jsstring :=
  map (fun s => processingFlag (s_contactId s)) (running sys).

Definition cooling_down (sys : System) : list jsstring :=
  map snd (timers (world sys)).

(** ** Vocabulary of the statements *)

(** The world a computation leaves behind. *)
Definition exec {A} (m : M A) (w : World) : World := (m w).1.2.

(** The unread ledger as [getUnreadCounts] sees it. *)
Definition ledger (w : World) : gmap jsstring Z :=
  default ∅ (unreadCounts (localStorage w)).

(** A read of the count of a contact, [counts[contactId] || 0]. *)
Definition unread (w : World) (contactId : jsstring) : Z :=
  count_or_zero (ledger w !! contactId).

(** A ledger in which every stored count is at least 1, as the worker
    leaves it. *)
Definition positive_ledger (w : World) : Prop :=
  forall c n, ledger w !! c = Some n -> 1 <= n.

(** The transcript of a contact, [allChats[contactId] || []]. *)
Definition transcript (allChats : gmap jsstring (list Message.t))
    (contactId : jsstring) : list Message.t :=
  default [] (allChats !! contactId).

(** The sizes of the calls that are for [contactId], added up. *)
Fixpoint total_for (contactId : jsstring) (calls : list (jsstring * Z)) : Z :=
  match calls with
  | [] => 0
  | (c, size) :: r =>
      (if jsstring_eqb c contactId then size else 0) + total_for contactId r
  end.

(** A double-quoted ASCII literal. *)
Definition quoted (s : string) : jsstring := [34%N] ++ js s ++ [34%N].

(** ** Reply parsing *)

Definition is_string (e : json) : bool :=
  match e with JStr _ => true | _ => false end.

(** A blank entry: a string that is empty once trimmed. *)
Definition is_blank (e : json) : bool :=
  match e with
  | JStr s => jsstring_eqb (JS.trim s) []
  | _ => false
  end.

(** The [replies] array of a parsed response that is an object with such a
    field. *)
Definition replies_field (v : json) : option (list json) :=
  match v with
  | JObj ms =>
      match JS.lookup_member (js "replies") ms with
      | Some (JArr l) => Some l
      | _ => None
      end
  | _ => None
  end.

(** The reply list in the words of the specification: the entries of
    [replies] without the blank ones when the text parses to an object with
    an array [replies], the whole text otherwise. *)
Definition spec_replies (raw : jsstring) : list jsval :=
  match JSON.parse raw with
  | Normal v =>
      match replies_field v with
      | Some l => map Some (List.filter (fun e => negb (is_blank e)) l)
      | None => [Some (JStr raw)]
      end
  | Throw _ => [Some (JStr raw)]
  end.

(** The same, with an array that holds something other than strings
    counted among the shapes that give the whole text. *)
Definition lenient_replies (raw : jsstring) : list jsval :=
  match JSON.parse raw with
  | Normal v =>
      match replies_field v with
      | Some l =>
          if forallb is_string l
          then map Some (List.filter (fun e => negb (is_blank e)) l)
          else [Some (JStr raw)]
      | None => [Some (JStr raw)]
      end
  | Throw _ => [Some (JStr raw)]
  end.

(** ** Appending replies *)

(** The messages made from a list of replies at time [t], starting with
    draw [n]. *)
Fixpoint stamped (t : Z) (n : nat) (replyMessages : list jsval) : list Message.t :=
  match replyMessages with
  | [] => []
  | content :: r =>
      Message.mk (t, n) (js "assistant") content t :: stamped t (S n) r
  end.

(** The transcripts as the worker reads them from [localStorage]. *)
Definition stored_chats (w : World) : gmap jsstring (list Message.t) :=
  default ∅ (chats (localStorage w)).

(** Two worlds that differ at most in [localStorage] and the draws of
    [Math.random()]. *)
Definition same_page (w w' : World) : Prop :=
  sessionStorage w' = sessionStorage w /\ timers w' = timers w
  /\ clock w' = clock w /\ hidden w' = hidden w.

(** ** One run of the loop *)

Definition configured (w : World) : bool :=
  str_truthy (apiUrl (localStorage w)) && str_truthy (apiKey (localStorage w)).

(** The flags of the contacts [ids] set, in that order. *)
Definition admit_all (ids : list jsstring) (ss : gmap jsstring jsstring)
  : gmap jsstring jsstring :=
  foldl (fun m c => <[processingFlag c := js "true"]> m) ss ids.

(** The timers that release the contacts [ids], set at time [t]. *)
Definition cooldowns (t : Z) (ids : list jsstring) : list (Z * jsstring) :=
  map (fun c => (t + 60000, processingFlag c)) ids.

Definition waiting_on (r : option Suspended) : list jsstring :=
  map s_contactId (opt_list r).

(** The world after a run of the loop that admitted the contacts [finished],
    whose attempts are over, and then [waiting], if any. *)
Definition after_scan (w : World) (finished : list jsstring)
    (waiting : option Suspended) : World :=
  mkWorld (localStorage w)
    (admit_all (finished ++ waiting_on waiting) (sessionStorage w))
    (timers w ++ cooldowns (clock w) finished)
    (clock w) (hidden w) (draws w).

(** The world in which the loop goes on after an attempt is over: the
    timer of the contact is set. *)
Definition released (contactId : jsstring) (w : World) : World :=
  with_timers (fun l => l ++ [(clock w + 60000, processingFlag contactId)]) w.

(** ** The guard over time *)

(** The flags held for a contact: by a run that waits on it, or by a
    cooldown timer. *)
Definition owners (sys : System) : list jsstring :=
  in_flight sys ++ cooling_down sys.

(** No flag is held twice, and every held flag is set. *)
Definition guard_inv (sys : System) : Prop :=
  NoDup (owners sys)
  /\ forall key, key ∈ owners sys -> flag_set (world sys) key = true.

(** ** Runs of the handler do not overlap themselves *)

Definition loaded_settings (w : World) : gmap jsstring Settings.t :=
  default ∅ (chatSettings (localStorage w)).

Definition loaded_contacts (w : World) : list Contact.t :=
  default [] (contacts (localStorage w)).


(** A page with two contacts, both silent for 300001 ms after a message of
    the user, and the service configured. *)
Definition contact_a : Contact.t :=
  Contact.mk (js "a") (Some (js "Ann")) None None.

Definition contact_b : Contact.t :=
  Contact.mk (js "b") (Some (js "Bob")) None None.

Definition user_message (t : Z) : Message.t :=
  Message.mk (t, 0%nat) (js "user") (Some (JStr (js "hi"))) t.

Definition two_due_storage : LocalStorage :=
  mkLocalStorage None
    (Some (<[js "a" := Settings.mk true]> (<[js "b" := Settings.mk true]> ∅)))
    (Some [contact_a; contact_b])
    (Some (<[js "a" := [user_message 0]]> (<[js "b" := [user_message 0]]> ∅)))
    (Some (js "https://api.example/v1")) (Some (js "secret")) None None None.

Definition two_due : World := mkWorld two_due_storage ∅ [] 300001 false 0.

(** ** Failures of the completion call *)




(** The success body the specification expects:
    [{choices: [{message: {content: <string>}}]}]. *)
Definition expected_body (data : json) : bool :=
  match data with
  | JObj ms =>
      match JS.lookup_member (js "choices") ms with
      | Some (JArr (JObj ms1 :: _)) =>
          match JS.lookup_member (js "message") ms1 with
          | Some (JObj ms2) =>
              match JS.lookup_member (js "content") ms2 with
              | Some (JStr _) => true
              | _ => false
              end
          | _ => false
          end
      | _ => false
      end
  | _ => false
  end.




(** ** Instances *)

Definition with_ledger (counts : gmap jsstring Z) (w : World) : World :=
  with_localStorage (set_unreadCounts counts) w.

Definition first_request : Request.t :=
  Request.mk (js "https://api.example/v1/chat/completions") (js "Bearer secret")
    None (js "Ann") 300001 [] [] [] [(js "user", Some (JStr (js "hi")))]
    (js "0.9").

(** The run of the handler on [two_due], waiting on the request for [a]. *)
Definition first_run : Suspended :=
  mkSuspended (loaded_settings two_due) (stored_chats two_due) (js "a")
    first_request [contact_b].

Definition after_first_tick : System :=
  mkSystem
    (with_sessionStorage (insert (processingFlag (js "a")) (js "true")) two_due)
    [first_run].


Definition response_with (content : jsstring) : FetchOutcome :=
  Response true (js "OK")
    (Normal
       (JObj [(js "choices",
               JArr [JObj [(js "message", JObj [(js "content", JStr content)])]])])).

Definition two_due_hidden : World := mkWorld two_due_storage ∅ [] 300001 true 0.

Definition unconfigured : World :=
  mkWorld
    (mkLocalStorage None (chatSettings two_due_storage) (contacts two_due_storage)
       (chats two_due_storage) None None None None None)
    ∅ [] 300001 false 0.

(** ** Further vocabulary *)

(** The contact the request is built for,
    [contacts.find(c => c.id === contactId)]. *)
Definition stored_contact (contactId : jsstring) (w : World) : option Contact.t :=
  find (fun c => jsstring_eqb (Contact.id c) contactId) (loaded_contacts w).

(** The request [callGlobalAiApi] sends for [charData] in world [w]. *)
Definition request_for (contactId : jsstring) (charData : Contact.t) (w : World)
  : Request.t :=
  let url := default [] (apiUrl (localStorage w)) in
  Request.mk
    (if negb (includes (js "/chat/completions") url)
     then strip_trailing_slash url ++ js "/chat/completions" else url)
    (js "Bearer " ++ default [] (apiKey (localStorage w)))
    (selectedModel (localStorage w))
    (str_or (Contact.name charData) (js "Character"))
    (clock w)
    (str_or (Contact.persona charData) [])
    (str_or (user_persona (localStorage w)) [])
    (str_or (Contact.note charData) [])
    (map (fun m => (Message.role m, Message.content m))
       (slice_last 15 (transcript (stored_chats w) contactId)))
    (str_or (temperature (localStorage w)) (js "0.9")).

(** The storage accesses of [callGlobalAiApi] up to its two checks. *)
Definition config_reads : list event :=
  [LsGet (js "apiUrl"); LsGet (js "apiKey"); LsGet (js "selectedModel")].

Definition lookup_reads : list event :=
  config_reads ++ [LsGet (js "chats"); LsGet (js "contacts")].




(** The first accesses of a visible tick: the three stores it loads. *)
Definition load_reads : list event :=
  [LsGet (js "chatSettings"); LsGet (js "contacts"); LsGet (js "chats")].

(** ** Further instances *)

(** The response text [{"replies":["hi","you there?"]}]. *)
Definition two_replies : jsstring :=
  js "{" ++ quoted "replies" ++ js ":[" ++ quoted "hi" ++ js ","
    ++ quoted "you there?" ++ js "]}".

(** The response text [{"replies":["","  "]}]. *)
Definition blank_replies : jsstring :=
  js "{" ++ quoted "replies" ++ js ":[" ++ quoted "" ++ js ","
    ++ quoted "  " ++ js "]}".

(** A refusal body [{"error":{"message":"quota exceeded"}}]. *)
Definition refusal_body : list (jsstring * json) :=
  [(js "error", JObj [(js "message", JStr (js "quota exceeded"))])].


(** [unconfigured] after a tick: both contacts were admitted, both attempts
    ended at once, both timers are pending. *)
Definition unconfigured_cooling : System :=
  mkSystem (after_scan unconfigured [js "a"; js "b"] None) [].

(** [two_due] loaded with the flag of [a] already set. *)
Definition left_behind : System :=
  mkSystem
    (with_sessionStorage (insert (processingFlag (js "a")) (js "true")) two_due)
    [].

(** ** Ids that name inherited properties, and counts past 2^53 *)

(** The ledger, the settings and the transcripts are plain objects used as
    dictionaries, and counts are double-precision numbers.  The finite maps
    over integers above are what the code does for an id that does not name
    a property inherited from [Object.prototype] and for counts up to 2^53.
    This module embeds lines 16 to 38 and the lookup of the transcript in
    [callGlobalAiApi] without these two restrictions. *)

(** The names a plain object inherits from [Object.prototype]. *)
Definition inherited_names : list jsstring :=
  [js "constructor"; js "__proto__"; js "hasOwnProperty"; js "isPrototypeOf";
   js "propertyIsEnumerable"; js "toLocaleString"; js "toString"; js "valueOf";
   js "__defineGetter__"; js "__defineSetter__"; js "__lookupGetter__";
   js "__lookupSetter__"].

Definition inherited (key : jsstring) : bool :=
  bool_decide (key ∈ inherited_names).

Module Precise.

(** A string made by [+]: the text of an inherited value, followed by the
    digits of the numbers added to it. *)
Inductive text :=
| OfInherited (key : jsstring)
| Plus (t : text) (n : Z).

(** What the ledger holds under a key: an integer that is a double, [null]
    (what [JSON.stringify] writes for a number that is not finite), or a
    string. *)
Inductive value :=
| Num (n : Z)
| Null
| Text (t : text).

(** What [counts[key]] gives: a property of the object itself, the one of
    [Object.prototype], or [undefined]. *)
Inductive found :=
| Own (v : value)
| Inherited (key : jsstring)
| Undefined.

Definition getProp (counts : gmap jsstring value) (key : jsstring) : found :=
  match counts !! key with
  | Some v => Own v
  | None => if inherited key then Inherited key else Undefined
  end.

Definition truthy (x : found) : bool :=
  match x with
  | Own (Num n) => negb (n =? 0)
  | Own Null => false
  | Own (Text _) => true
  | Inherited _ => true
  | Undefined => false
  end.

(** The double nearest to an integer, ties to the even significand of 53
    bits. *)
Definition round_double (z : Z) : Z :=
  let a := Z.abs z in
  if a <? 2 ^ 53 then z
  else
    let e := Z.log2 a - 52 in
    let q := a / 2 ^ e in
    let r := a mod 2 ^ e in
    let half := 2 ^ (e - 1) in
    let q' :=
      if r <? half then q
      else if half <? r then q + 1
      else if Z.even q then q else q + 1 in
    Z.sgn z * (q' * 2 ^ e).

(** A number as [JSON.stringify] writes it: [null] once it has overflowed
    to [Infinity]. *)
Definition written (z : Z) : value :=
  if 2 ^ 1024 <=? Z.abs z then Null else Num z.

(** [x || 0]. *)
Definition or_zero (x : found) : found :=
  if truthy x then x else Own (Num 0).

(** [x + n] for a number [n], as [JSON.stringify] writes it: the sum of two
    numbers is rounded, a string or an object on the left makes it a
    concatenation, and [undefined + n] is [NaN]. *)
Definition plus (x : found) (n : Z) : value :=
  match x with
  | Own (Num c) => written (round_double (c + n))
  | Own Null => written (round_double (0 + n))
  | Own (Text t) => Text (Plus t n)
  | Inherited key => Text (Plus (OfInherited key) n)
  | Undefined => Null
  end.

(** [counts[key] = v] for a number or a string [v]: the setter inherited
    under [__proto__] ignores such a value. *)
Definition setProp (counts : gmap jsstring value) (key : jsstring) (v : value)
  : gmap jsstring value :=
  match counts !! key with
  | Some _ => <[key := v]> counts
  | None =>
      if jsstring_eqb key (js "__proto__") then counts else <[key := v]> counts
  end.

(** The item [unreadCounts] of [localStorage]; [None] when it is absent. *)
Definition item := option (gmap jsstring value).

Definition getUnreadCounts (stored : item) : gmap jsstring value :=
  default ∅ stored.

Definition incrementUnreadCount (contactId : jsstring) (messageCount : option Z)
    (stored : item) : item :=
  let messageCount := default 1 messageCount in
  let counts := getUnreadCounts stored in
  let counts :=
    setProp counts contactId
      (plus (or_zero (getProp counts contactId)) messageCount) in
  Some counts.

Definition clearUnreadCount (contactId : jsstring) (stored : item) : item :=
  let counts := getUnreadCounts stored in
  if truthy (getProp counts contactId) then Some (delete contactId counts)
  else stored.

(** A read of the count of a contact, [counts[contactId] || 0]. *)
Definition unread (stored : item) (contactId : jsstring) : found :=
  or_zero (getProp (getUnreadCounts stored) contactId).

Fixpoint increments (calls : list (jsstring * Z)) (stored : item) : item :=
  match calls with
  | [] => stored
  | (contactId, size) :: r =>
      increments r (incrementUnreadCount contactId (Some size) stored)
  end.

(** [history.slice(-15)] on what [allChats[contactId] || []] gave (lines 144
    and 186): the value inherited under the id has no [slice]. *)
Definition history_window (allChats : gmap jsstring (list Message.t))
    (contactId : jsstring) : completion (list Message.t) :=
  match allChats !! contactId with
  | Some history => Normal (slice_last 15 history)
  | None => if inherited contactId then Throw TypeError else Normal []
  end.

(** [callGlobalAiApi] up to its [fetch]. *)
Definition callGlobalAiApi_request (contactId : jsstring) : M Request.t :=
  url <- ls_getItem "apiUrl" apiUrl ;;
  key <- ls_getItem "apiKey" apiKey ;;
  model <- ls_getItem "selectedModel" selectedModel ;;
  if negb (str_truthy url) || negb (str_truthy key) then
    throw (Error (js "API not configured"))
  else
    let url := default [] url in
    let key := default [] key in
    allChats <- ls_getItem "chats" chats ;;
    let allChats := default ∅ allChats in
    stored <- ls_getItem "contacts" contacts ;;
    let charData :=
      find (fun c => jsstring_eqb (Contact.id c) contactId) (default [] stored) in
    match charData with
    | None => throw (Error (js "Contact with id " ++ contactId ++ js " not found"))
    | Some charData =>
        let persona := str_or (Contact.persona charData) [] in
        let note := str_or (Contact.note charData) [] in
        let charName := str_or (Contact.name charData) (js "Character") in
        userPersona <- ls_getItem "user_persona" user_persona ;;
        let userPersona := str_or userPersona [] in
        now <- Date_now ;;
        window <- lift (history_window allChats contactId) ;;
        let msgsToSend :=
          map (fun m => (Message.role m, Message.content m)) window in
        let fullUrl :=
          if negb (includes (js "/chat/completions") url)
          then strip_trailing_slash url ++ js "/chat/completions"
          else url in
        temp <- ls_getItem "temperature" temperature ;;
        ret (Request.mk fullUrl (js "Bearer " ++ key) model charName now persona
               userPersona note msgsToSend (str_or temp (js "0.9")))
    end.

(** [triggerGlobalAiReply] up to the [fetch] of [callGlobalAiApi]. *)
Definition triggerGlobalAiReply_request (contactId : jsstring)
  : M (option Request.t) :=
  try_catch
    (req <- callGlobalAiApi_request contactId ;; ret (Some req))
    (fun err => ret None).

End Precise.

(** The typed ledger inside the ledger of the code. *)
Definition as_item (stored : option (gmap jsstring Z)) : Precise.item :=
  match stored with
  | Some counts => Some (Precise.Num <$> counts)
  | None => None
  end.

(** An id for which the finite maps are the objects of the code: it names
    no inherited property, or the object has a key of its own for it. *)
Definition plain_in {A} (m : gmap jsstring A) (contactId : jsstring) : Prop :=
  inherited contactId = false \/ is_Some (m !! contactId).

(** C7 in the words of the specification: from any ledger, the count after
    a sequence of increments is the count before, 0 for an absent key, plus
    the sizes. *)
Definition increments_always_add_up : Prop :=
  forall contactId calls stored c,
    (Precise.getUnreadCounts stored !! contactId = Some (Precise.Num c)
     \/ Precise.getUnreadCounts stored !! contactId = None /\ c = 0) ->
    Forall (fun call : jsstring * Z => 1 <= call.2) calls ->
    Precise.unread (Precise.increments calls stored) contactId
    = Precise.Own (Precise.Num (c + total_for contactId calls)).

(** C8 in the words of the specification: a key that is present is removed,
    a clear for an absent key leaves the stored ledger as it is, and the
    count read afterwards is 0. *)
Definition clear_as_specified : Prop :=
  forall contactId stored,
    (is_Some (Precise.getUnreadCounts stored !! contactId) ->
     Precise.getUnreadCounts (Precise.clearUnreadCount contactId stored)
       !! contactId = None)
    /\ (Precise.getUnreadCounts stored !! contactId = None ->
        Precise.clearUnreadCount contactId stored = stored)
    /\ Precise.unread (Precise.clearUnreadCount contactId stored) contactId
       = Precise.Own (Precise.Num 0).

(** ** What a run of the loop finds due *)

(** The loop tests the guard flag of a contact (line 75) exactly when it
    has found the contact due at line 70: the read of the flag in the trace
    of a run marks the contact as due. *)
Definition marks_due (tr : list event) (contactId : jsstring) : Prop :=
  SsGet (processingFlag contactId) ∈ tr.

(** The contacts of the list a run has looked at when it returns: all of
    them when it is over, those up to the one it waits on otherwise. *)
Definition looked_at (contacts : list Contact.t) (r : option Suspended)
  : list Contact.t :=
  match r with
  | None => contacts
  | Some s => take (length contacts - length (s_rest s)) contacts
  end.

(** A second tick on [after_first_tick], 15 seconds later: [a] is held, so
    the run admits [b] and waits on its request. *)
Definition second_request : Request.t :=
  Request.mk (js "https://api.example/v1/chat/completions") (js "Bearer secret")
    None (js "Bob") 315001 [] [] [] [(js "user", Some (JStr (js "hi")))]
    (js "0.9").

Definition second_run : Suspended :=
  mkSuspended (loaded_settings two_due) (stored_chats two_due) (js "b")
    second_request [].

Definition both_waiting : System :=
  mkSystem
    (with_sessionStorage (insert (processingFlag (js "b")) (js "true"))
       (with_clock 315001 (world after_first_tick)))
    [first_run; second_run].

(** The request for [b] is answered at 316000 with two replies, and the
    cooldown of [b] ends at 376000 while the request for [a] is still
    out. *)
Definition b_answered : System :=
  mkSystem
    (exec (resume second_run (response_with two_replies))
       (with_clock 316000 (world both_waiting)))
    [first_run].

Definition b_released : System :=
  mkSystem
    (with_timers (fun _ => [])
       (with_sessionStorage (delete (processingFlag (js "b")))
          (with_clock 380000 (world b_answered))))
    [first_run].

(** A page whose only contact has the id [constructor]: the service is
    configured, nothing else is stored. *)
Definition named_constructor : World :=
  mkWorld
    (mkLocalStorage None None
       (Some [Contact.mk (js "constructor") (Some (js "Con")) None None]) None
       (Some (js "https://api.example/v1")) (Some (js "secret")) None None None)
    ∅ [] 0 false 0.

(** * Properties *)

(** ** The parser uses all of its text before its fuel *)

Lemma skip_ws_length s : (length (JSON.skip_ws s) <= length s)%nat.
Proof.
  induction s as [|c r IH]; simpl; [lia|].
  destruct (JSON.is_ws c); simpl; lia.
Qed.

Lemma string_body_length_aux n : forall s acc str r,
  (length s <= n)%nat ->
  JSON.string_body acc s = Some (str, r) -> (length r < length s)%nat.
Proof.
  induction n as [|n IH]; intros s acc str r Hn.
  { destruct s; [discriminate|simpl in Hn; lia]. }
  destruct s as [|c s1]; simpl; [discriminate|]. simpl in Hn.
  destruct (c =? 34)%N; [intros [= _ <-]; lia|].
  destruct (c =? 92)%N.
  - destruct s1 as [|e r1]; [discriminate|].
    destruct (e =? 117)%N.
    + destruct r1 as [|h1 [|h2 [|h3 [|h4 r2]]]]; try discriminate.
      destruct (JSON.hex4 h1 h2 h3 h4); [|discriminate].
      intros H. apply IH in H; simpl in *; lia.
    + destruct (JSON.unescape e); [|discriminate].
      intros H. apply IH in H; simpl in *; lia.
  - destruct (c <? 32)%N; [discriminate|].
    intros H. apply IH in H; simpl in *; lia.
Qed.

Lemma string_body_length s acc str r :
  JSON.string_body acc s = Some (str, r) -> (length r < length s)%nat.
Proof. apply (string_body_length_aux (length s)). lia. Qed.

Lemma span_digits_length s d r :
  JSON.span_digits s = (d, r) -> length s = (length d + length r)%nat.
Proof.
  revert d r. induction s as [|c s IH]; simpl; intros d r.
  - intros [= <- <-]. reflexivity.
  - destruct (JSON.is_digit c).
    + destruct (JSON.span_digits s) as [d' r'] eqn:E.
      intros [= <- <-]. simpl. rewrite (IH d' r' eq_refl). lia.
    + intros [= <- <-]. reflexivity.
Qed.

Lemma number_literal_length s lit r :
  JSON.number_literal s = Some (lit, r) -> (length r < length s)%nat.
Proof.
  unfold JSON.number_literal.
  set (p := match s with
            | c :: r0 => if (c =? 45)%N then ([c], r0) else ([], s)
            | [] => ([], s)
            end).
  assert (Hp : (length p.2 <= length s)%nat).
  { unfold p. destruct s as [|c r0]; simpl; [lia|].
    destruct (c =? 45)%N; simpl; lia. }
  destruct p as [sign s1]. simpl in Hp.
  destruct (JSON.span_digits s1) as [int s2] eqn:E1.
  apply span_digits_length in E1.
  destruct (negb _) eqn:Hok; [discriminate|].
  assert (Hint : (0 < length int)%nat).
  { destruct int; simpl in *; [discriminate|lia]. }
  set (frac := match s2 with
               | c :: r0 => if (c =? 46)%N then
                    let '(d, r') := JSON.span_digits r0 in
                    match d with [] => None | _ => Some (c :: d, r') end
                  else Some ([], s2)
               | [] => Some ([], s2)
               end).
  assert (Hf : forall fr s3, frac = Some (fr, s3) -> (length s3 <= length s2)%nat).
  { unfold frac. intros fr s3. destruct s2 as [|c r0]; [intros [= _ <-]; lia|].
    destruct (c =? 46)%N; [|intros [= _ <-]; lia].
    destruct (JSON.span_digits r0) as [d r'] eqn:E2.
    apply span_digits_length in E2.
    destruct d; [discriminate|]. intros [= _ <-]. simpl in *. lia. }
  destruct frac as [[fr s3]|]; [|discriminate].
  specialize (Hf fr s3 eq_refl).
  set (exp := match s3 with
              | c :: r0 => _
              | [] => Some ([], s3)
              end).
  assert (He : forall ex s4, exp = Some (ex, s4) -> (length s4 <= length s3)%nat).
  { unfold exp. intros ex s4. destruct s3 as [|c r0]; [intros [= _ <-]; lia|].
    destruct ((c =? 101) || (c =? 69))%N; [|intros [= _ <-]; lia].
    set (q := match r0 with
              | c1 :: r' => if ((c1 =? 43) || (c1 =? 45))%N then ([c1], r') else ([], r0)
              | [] => ([], r0)
              end).
    assert (Hq : (length q.2 <= length r0)%nat).
    { unfold q. destruct r0 as [|c1 r']; simpl; [lia|].
      destruct ((c1 =? 43) || (c1 =? 45))%N; simpl; lia. }
    destruct q as [sg r1]. simpl in Hq.
    destruct (JSON.span_digits r1) as [d r2] eqn:E3.
    apply span_digits_length in E3.
    destruct d; [discriminate|]. intros [= _ <-]. simpl in *. lia. }
  destruct exp as [[ex s4]|]; [|discriminate].
  specialize (He ex s4 eq_refl).
  intros [= _ <-]. lia.
Qed.

Lemma strip_prefix_length p s r :
  JSON.strip_prefix p s = Some r -> (length r <= length s)%nat.
Proof.
  revert s. induction p as [|a p IH]; intros s; simpl.
  - intros [= <-]. lia.
  - destruct s as [|b s']; [discriminate|].
    destruct (a =? b)%N; [|discriminate].
    intros H. apply IH in H. simpl. lia.
Qed.

Lemma value_S fuel s :
  JSON.value (S fuel) s =
  match JSON.skip_ws s with
  | [] => None
  | c :: r =>
      if (c =? 123)%N then
        match JSON.skip_ws r with
        | c1 :: r1 =>
            if (c1 =? 125)%N then Some (JObj [], r1)
            else JSON.members fuel [] (c1 :: r1)
        | [] => None
        end
      else if (c =? 91)%N then
        match JSON.skip_ws r with
        | c1 :: r1 =>
            if (c1 =? 93)%N then Some (JArr [], r1)
            else JSON.elements fuel [] (c1 :: r1)
        | [] => None
        end
      else if (c =? 34)%N then
        match JSON.string_body [] r with
        | Some (str, r1) => Some (JStr str, r1)
        | None => None
        end
      else if (c =? 116)%N then
        match JSON.strip_prefix (js "rue") r with
        | Some r1 => Some (JBool true, r1)
        | None => None
        end
      else if (c =? 102)%N then
        match JSON.strip_prefix (js "alse") r with
        | Some r1 => Some (JBool false, r1)
        | None => None
        end
      else if (c =? 110)%N then
        match JSON.strip_prefix (js "ull") r with
        | Some r1 => Some (JNull, r1)
        | None => None
        end
      else
        match JSON.number_literal (c :: r) with
        | Some (lit, r1) => Some (JNum lit, r1)
        | None => None
        end
  end.
Proof. reflexivity. Qed.

Lemma elements_S fuel acc s :
  JSON.elements (S fuel) acc s =
  match JSON.value fuel s with
  | Some (v, r) =>
      match JSON.skip_ws r with
      | c :: r1 =>
          if (c =? 44)%N then JSON.elements fuel (v :: acc) r1
          else if (c =? 93)%N then Some (JArr (rev (v :: acc)), r1)
          else None
      | [] => None
      end
  | None => None
  end.
Proof. reflexivity. Qed.

Lemma members_S fuel acc s :
  JSON.members (S fuel) acc s =
  match JSON.skip_ws s with
  | c :: r =>
      if (c =? 34)%N then
        match JSON.string_body [] r with
        | Some (key, r1) =>
            match JSON.skip_ws r1 with
            | c2 :: r2 =>
                if (c2 =? 58)%N then
                  match JSON.value fuel r2 with
                  | Some (v, r3) =>
                      match JSON.skip_ws r3 with
                      | c4 :: r4 =>
                          if (c4 =? 44)%N then JSON.members fuel ((key, v) :: acc) r4
                          else if (c4 =? 125)%N
                               then Some (JObj (rev ((key, v) :: acc)), r4)
                               else None
                      | [] => None
                      end
                  | None => None
                  end
                else None
            | [] => None
            end
        | None => None
        end
      else None
  | [] => None
  end.
Proof. reflexivity. Qed.

(** Case analysis on the text after its leading white space. *)
Ltac skip_case s c r H :=
  let E := fresh "E" in
  pose proof (skip_ws_length s) as H;
  destruct (JSON.skip_ws s) as [|c r] eqn:E; [try discriminate|]; simpl in H.

Lemma parser_consumes fuel :
  (forall s v r, JSON.value fuel s = Some (v, r) -> (length r < length s)%nat)
  /\ (forall acc s v r, JSON.elements fuel acc s = Some (v, r) ->
        (length r < length s)%nat)
  /\ (forall acc s v r, JSON.members fuel acc s = Some (v, r) ->
        (length r < length s)%nat).
Proof.
  induction fuel as [|fuel (IHv & IHe & IHm)].
  { repeat split; intros; discriminate. }
  split; [|split].
  - intros s v r. rewrite value_S.
    skip_case s c r0 Hs.
    destruct (c =? 123)%N.
    { skip_case r0 c1 r1 Hr.
      destruct (c1 =? 125)%N; [intros [= _ <-]; lia|].
      intros H. apply IHm in H. simpl in H. lia. }
    destruct (c =? 91)%N.
    { skip_case r0 c1 r1 Hr.
      destruct (c1 =? 93)%N; [intros [= _ <-]; lia|].
      intros H. apply IHe in H. simpl in H. lia. }
    destruct (c =? 34)%N.
    { destruct (JSON.string_body [] r0) as [[str r1]|] eqn:Eb; [|discriminate].
      apply string_body_length in Eb. intros [= _ <-]. lia. }
    destruct (c =? 116)%N.
    { destruct (JSON.strip_prefix _ r0) as [r1|] eqn:Ep; [|discriminate].
      apply strip_prefix_length in Ep. intros [= _ <-]. lia. }
    destruct (c =? 102)%N.
    { destruct (JSON.strip_prefix _ r0) as [r1|] eqn:Ep; [|discriminate].
      apply strip_prefix_length in Ep. intros [= _ <-]. lia. }
    destruct (c =? 110)%N.
    { destruct (JSON.strip_prefix _ r0) as [r1|] eqn:Ep; [|discriminate].
      apply strip_prefix_length in Ep. intros [= _ <-]. lia. }
    destruct (JSON.number_literal (c :: r0)) as [[lit r1]|] eqn:En; [|discriminate].
    apply number_literal_length in En. simpl in En. intros [= _ <-]. lia.
  - intros acc s v r. rewrite elements_S.
    destruct (JSON.value fuel s) as [[v0 r0]|] eqn:Ev; [|discriminate].
    apply IHv in Ev.
    skip_case r0 c r1 Hr.
    destruct (c =? 44)%N.
    { intros H. apply IHe in H. lia. }
    destruct (c =? 93)%N; [|discriminate].
    intros [= _ <-]. lia.
  - intros acc s v r. rewrite members_S.
    skip_case s c r0 Hs.
    destruct (c =? 34)%N; [|discriminate].
    destruct (JSON.string_body [] r0) as [[key r1]|] eqn:Eb; [|discriminate].
    apply string_body_length in Eb.
    skip_case r1 c2 r2 Hr1.
    destruct (c2 =? 58)%N; [|discriminate].
    destruct (JSON.value fuel r2) as [[v0 r3]|] eqn:Ev; [|discriminate].
    apply IHv in Ev.
    skip_case r3 c4 r4 Hr3.
    destruct (c4 =? 44)%N.
    { intros H. apply IHm in H. lia. }
    destruct (c4 =? 125)%N; [|discriminate].
    intros [= _ <-]. lia.
Qed.

(** Beyond twice the length of the text, more fuel changes nothing. *)
Lemma parser_fuel_stable fuel :
  (forall s, (2 * length s + 1 <= fuel)%nat ->
     JSON.value (S fuel) s = JSON.value fuel s)
  /\ (forall acc s, (2 * length s + 2 <= fuel)%nat ->
        JSON.elements (S fuel) acc s = JSON.elements fuel acc s)
  /\ (forall acc s, (2 * length s + 2 <= fuel)%nat ->
        JSON.members (S fuel) acc s = JSON.members fuel acc s).
Proof.
  induction fuel as [|fuel (IHv & IHe & IHm)].
  { repeat split; intros; lia. }
  split; [|split].
  - intros s Hb. rewrite (value_S (S fuel)), (value_S fuel).
    skip_case s c r0 Hs; [reflexivity|].
    destruct (c =? 123)%N.
    { skip_case r0 c1 r1 Hr; [reflexivity|].
      destruct (c1 =? 125)%N; [reflexivity|].
      apply IHm. simpl. lia. }
    destruct (c =? 91)%N; [|reflexivity].
    skip_case r0 c1 r1 Hr; [reflexivity|].
    destruct (c1 =? 93)%N; [reflexivity|].
    apply IHe. simpl. lia.
  - intros acc s Hb. rewrite (elements_S (S fuel)), (elements_S fuel).
    rewrite IHv by lia.
    destruct (JSON.value fuel s) as [[v0 r0]|] eqn:Ev; [|reflexivity].
    apply (proj1 (parser_consumes fuel)) in Ev.
    skip_case r0 c r1 Hr; [reflexivity|].
    destruct (c =? 44)%N; [|reflexivity].
    apply IHe. lia.
  - intros acc s Hb. rewrite (members_S (S fuel)), (members_S fuel).
    skip_case s c r0 Hs; [reflexivity|].
    destruct (c =? 34)%N; [|reflexivity].
    destruct (JSON.string_body [] r0) as [[key r1]|] eqn:Eb; [|reflexivity].
    apply string_body_length in Eb.
    skip_case r1 c2 r2 Hr1; [reflexivity|].
    destruct (c2 =? 58)%N; [|reflexivity].
    rewrite IHv by lia.
    destruct (JSON.value fuel r2) as [[v0 r3]|] eqn:Ev; [|reflexivity].
    apply (proj1 (parser_consumes fuel)) in Ev.
    skip_case r3 c4 r4 Hr3; [reflexivity|].
    destruct (c4 =? 44)%N; [|reflexivity].
    apply IHm. lia.
Qed.

(** The fuel of [JSON.parse] is enough: with any more of it the parser
    gives the same value. *)
Lemma parse_fuel_enough text extra :
  JSON.value (2 * length text + 2 + extra)%nat text
  = JSON.value (2 * length text + 2)%nat text.
Proof.
  induction extra as [|k IH]; [f_equal; lia|].
  rewrite <- IH. replace (2 * length text + 2 + S k)%nat
    with (S (2 * length text + 2 + k)) by lia.
  apply (proj1 (parser_fuel_stable _)). lia.
Qed.

(** ** Unread ledger *)

Lemma jsstring_eqb_eq a b : jsstring_eqb a b = true <-> a = b.
Proof. unfold jsstring_eqb. apply bool_decide_eq_true. Qed.

Lemma jsstring_eqb_neq a b : jsstring_eqb a b = false <-> a <> b.
Proof. unfold jsstring_eqb. apply bool_decide_eq_false. Qed.

Lemma count_or_zero_Some n : count_or_zero (Some n) = n.
Proof.
  unfold count_or_zero, count_truthy; simpl.
  destruct (Z.eqb_spec n 0); simpl; congruence.
Qed.

Lemma incrementUnreadCount_run contactId size w :
  incrementUnreadCount contactId (Some size) w =
  (Normal tt,
   with_localStorage
     (set_unreadCounts (<[contactId := unread w contactId + size]> (ledger w))) w,
   [LsGet (js "unreadCounts"); LsSet (js "unreadCounts")]).
Proof. reflexivity. Qed.

Lemma ledger_after_increment contactId size w :
  ledger (exec (incrementUnreadCount contactId (Some size)) w) =
  <[contactId := unread w contactId + size]> (ledger w).
Proof. reflexivity. Qed.

Lemma total_for_perm contactId calls calls' :
  Permutation calls calls' -> total_for contactId calls = total_for contactId calls'.
Proof.
  induction 1 as [|[c a] l l' _ IH|[c a] [c' a'] l|l1 l2 l3 _ IH1 _ IH2];
    simpl; lia.
Qed.

Lemma clearUnreadCount_truthy contactId w :
  count_truthy (ledger w !! contactId) = true ->
  clearUnreadCount contactId w =
  (Normal tt,
   with_localStorage (set_unreadCounts (delete contactId (ledger w))) w,
   [LsGet (js "unreadCounts"); LsSet (js "unreadCounts")]).
Proof.
  intros H. unfold clearUnreadCount, bind, getUnreadCounts, ls_getItem; simpl.
  fold (ledger w). rewrite H. reflexivity.
Qed.

Lemma clearUnreadCount_falsy contactId w :
  count_truthy (ledger w !! contactId) = false ->
  clearUnreadCount contactId w = (Normal tt, w, [LsGet (js "unreadCounts")]).
Proof.
  intros H. unfold clearUnreadCount, bind, getUnreadCounts, ls_getItem; simpl.
  fold (ledger w). rewrite H. reflexivity.
Qed.

(** The worker itself never stores a zero: increments of at least 1 and
    clears keep every stored count at least 1, and on such a ledger a clear
    always leaves the key absent. *)
Lemma positive_ledger_increment contactId size w :
  positive_ledger w -> 1 <= size ->
  positive_ledger (exec (incrementUnreadCount contactId (Some size)) w).
Proof.
  intros Hpos Hsize c n. rewrite ledger_after_increment.
  destruct (decide (contactId = c)) as [->|Hne].
  - rewrite lookup_insert_eq. intros [= <-].
    unfold unread. destruct (ledger w !! c) as [m|] eqn:E.
    + rewrite count_or_zero_Some. specialize (Hpos c m E). lia.
    + unfold count_or_zero; simpl. lia.
  - rewrite lookup_insert_ne by done. apply Hpos.
Qed.

Lemma positive_ledger_clear contactId w :
  positive_ledger w ->
  positive_ledger (exec (clearUnreadCount contactId) w)
  /\ ledger (exec (clearUnreadCount contactId) w) !! contactId = None.
Proof.
  intros Hpos. unfold exec.
  destruct (ledger w !! contactId) as [n|] eqn:E.
  - assert (Ht : count_truthy (ledger w !! contactId) = true).
    { rewrite E; simpl. specialize (Hpos _ _ E).
      destruct (Z.eqb_spec n 0); [lia|reflexivity]. }
    rewrite (clearUnreadCount_truthy _ _ Ht); simpl. split.
    + intros c m. unfold ledger at 1; simpl.
      destruct (decide (contactId = c)) as [->|Hne].
      * rewrite lookup_delete_eq. discriminate.
      * rewrite lookup_delete_ne by done. apply Hpos.
    + unfold ledger at 1; simpl. apply lookup_delete_eq.
  - assert (Ht : count_truthy (ledger w !! contactId) = false)
      by (rewrite E; reflexivity).
    rewrite (clearUnreadCount_falsy _ _ Ht); simpl. split; [exact Hpos|exact E].
Qed.

(** ** The ledger as the code has it *)

Lemma inherited_proto : inherited (js "__proto__") = true.
Proof. vm_compute. reflexivity. Qed.

Lemma not_inherited_not_proto key :
  inherited key = false -> jsstring_eqb key (js "__proto__") = false.
Proof.
  intros H. apply jsstring_eqb_neq. intros ->.
  rewrite inherited_proto in H. discriminate.
Qed.

Lemma round_double_exact z : 0 <= z <= 2 ^ 53 -> Precise.round_double z = z.
Proof.
  intros Hz. unfold Precise.round_double.
  rewrite (Z.abs_eq z) by lia.
  destruct (Z.ltb_spec z (2 ^ 53)) as [Hlt|Hge]; [reflexivity|].
  assert (z = 2 ^ 53) as -> by lia. vm_compute. reflexivity.
Qed.

Lemma written_small z : 0 <= z <= 2 ^ 53 -> Precise.written z = Precise.Num z.
Proof.
  intros Hz. unfold Precise.written. rewrite (Z.abs_eq z) by lia.
  assert (H : 2 ^ 53 < 2 ^ 1024) by (apply Z.pow_lt_mono_r; lia).
  destruct (Z.leb_spec (2 ^ 1024) z); [lia|reflexivity].
Qed.

(** A count that reads as a number, and what an increment makes of it. *)
Lemma unread_number_cases stored contactId c :
  Precise.unread stored contactId = Precise.Own (Precise.Num c) ->
  Precise.or_zero (Precise.getProp (Precise.getUnreadCounts stored) contactId)
  = Precise.Own (Precise.Num c)
  /\ (Precise.getUnreadCounts stored !! contactId = None ->
      inherited contactId = false /\ c = 0).
Proof.
  unfold Precise.unread. intros H. split; [exact H|].
  intros E. unfold Precise.getProp in H. rewrite E in H.
  destruct (inherited contactId); [discriminate|].
  injection H as <-. auto.
Qed.

(** The count of an id that names no inherited property reads as a number
    whenever its key is absent or holds a number. *)
Lemma unread_is_number stored contactId :
  inherited contactId = false ->
  Precise.getUnreadCounts stored !! contactId = None
  \/ (exists n, Precise.getUnreadCounts stored !! contactId = Some (Precise.Num n)) ->
  exists c, Precise.unread stored contactId = Precise.Own (Precise.Num c).
Proof.
  intros Hplain [E|[n E]]; unfold Precise.unread, Precise.getProp, Precise.or_zero;
    rewrite E.
  - rewrite Hplain. exists 0. reflexivity.
  - simpl. destruct (Z.eqb_spec n 0); simpl; eauto.
Qed.

Lemma getProp_setProp_ne counts key key' v :
  key <> key' ->
  Precise.getProp (Precise.setProp counts key v) key'
  = Precise.getProp counts key'.
Proof.
  intros Hne. unfold Precise.getProp, Precise.setProp.
  destruct (counts !! key);
    [|destruct (jsstring_eqb key (js "__proto__")); [reflexivity|]];
    rewrite lookup_insert_ne by done; reflexivity.
Qed.

Lemma unread_after_other contactId other size stored :
  other <> contactId ->
  Precise.unread (Precise.incrementUnreadCount other (Some size) stored) contactId
  = Precise.unread stored contactId.
Proof.
  intros Hne. unfold Precise.unread, Precise.incrementUnreadCount.
  cbn [Precise.getUnreadCounts default from_option].
  change (id ?x) with x.
  rewrite getProp_setProp_ne by done. reflexivity.
Qed.

Lemma unread_after_own contactId size stored c :
  Precise.unread stored contactId = Precise.Own (Precise.Num c) ->
  0 <= c + size <= 2 ^ 53 ->
  c + size <> 0 ->
  Precise.unread (Precise.incrementUnreadCount contactId (Some size) stored)
    contactId
  = Precise.Own (Precise.Num (c + size)).
Proof.
  intros Hread Hsum Hnz.
  destruct (unread_number_cases _ _ _ Hread) as (Hor & Habsent).
  unfold Precise.unread, Precise.incrementUnreadCount.
  cbn [Precise.getUnreadCounts default from_option]. change (id ?x) with x.
  fold (Precise.getUnreadCounts stored). rewrite Hor.
  cbn [Precise.plus default from_option]. change (id ?x) with x.
  rewrite round_double_exact, written_small by lia.
  assert (Hset : Precise.setProp (Precise.getUnreadCounts stored) contactId
                   (Precise.Num (c + size))
                 = <[contactId := Precise.Num (c + size)]>
                     (Precise.getUnreadCounts stored)).
  { unfold Precise.setProp.
    destruct (Precise.getUnreadCounts stored !! contactId) eqn:E; [reflexivity|].
    destruct (Habsent eq_refl) as (Hplain & _).
    rewrite (not_inherited_not_proto _ Hplain). reflexivity. }
  rewrite Hset. unfold Precise.getProp. rewrite lookup_insert_eq.
  unfold Precise.or_zero, Precise.truthy.
  destruct (Z.eqb_spec (c + size) 0); [contradiction|reflexivity].
Qed.

Lemma total_for_nonneg contactId calls :
  Forall (fun call : jsstring * Z => 1 <= call.2) calls ->
  0 <= total_for contactId calls.
Proof.
  induction 1 as [|[c a] r Ha _ IH]; simpl in *; [lia|].
  destruct (jsstring_eqb c contactId); lia.
Qed.

Lemma unread_after_increments_in_range calls : forall contactId stored c,
  Precise.unread stored contactId = Precise.Own (Precise.Num c) ->
  0 <= c ->
  Forall (fun call : jsstring * Z => 1 <= call.2) calls ->
  c + total_for contactId calls <= 2 ^ 53 ->
  Precise.unread (Precise.increments calls stored) contactId
  = Precise.Own (Precise.Num (c + total_for contactId calls)).
Proof.
  induction calls as [|[other a] r IH]; intros contactId stored c Hread Hc Hall Hsum.
  - simpl. rewrite Z.add_0_r. exact Hread.
  - inversion Hall as [|x l Ha Hr]; subst. simpl in Ha.
    pose proof (total_for_nonneg contactId r Hr) as Hnn.
    simpl in *. destruct (jsstring_eqb other contactId) eqn:E.
    + apply jsstring_eqb_eq in E. subst other.
      rewrite (IH contactId _ (c + a)); [f_equal; f_equal; lia| |lia|exact Hr|lia].
      apply unread_after_own; [exact Hread|lia|lia].
    + apply jsstring_eqb_neq in E.
      rewrite (IH contactId _ c); [f_equal; f_equal; lia| |lia|exact Hr|lia].
      rewrite unread_after_other by exact E. exact Hread.
Qed.

Lemma unread_after_clear_plain contactId stored :
  inherited contactId = false ->
  Precise.unread (Precise.clearUnreadCount contactId stored) contactId
  = Precise.Own (Precise.Num 0).
Proof.
  intros Hplain. unfold Precise.clearUnreadCount, Precise.unread.
  destruct (Precise.truthy (Precise.getProp (Precise.getUnreadCounts stored) contactId))
    eqn:E.
  - cbn [Precise.getUnreadCounts default from_option]. change (id ?x) with x.
    unfold Precise.getProp. rewrite lookup_delete_eq, Hplain. reflexivity.
  - unfold Precise.or_zero. rewrite E. reflexivity.
Qed.

(** The typed ledger is the ledger of the code on plain ids and counts up
    to 2^53. *)
Lemma getProp_as_item (m : gmap jsstring Z) contactId :
  plain_in m contactId ->
  Precise.or_zero (Precise.getProp (Precise.Num <$> m) contactId)
  = Precise.Own (Precise.Num (count_or_zero (m !! contactId)))
  /\ Precise.truthy (Precise.getProp (Precise.Num <$> m) contactId)
     = count_truthy (m !! contactId).
Proof.
  intros Hplain. unfold Precise.getProp, Precise.or_zero.
  rewrite lookup_fmap.
  destruct (m !! contactId) as [n|] eqn:E; simpl.
  - rewrite count_or_zero_Some.
    destruct (Z.eqb_spec n 0); simpl; [subst|]; auto.
  - destruct Hplain as [->|[x Hx]]; [auto|congruence].
Qed.

Lemma as_item_ledger stored :
  Precise.getUnreadCounts (as_item stored) = Precise.Num <$> default ∅ stored.
Proof. destruct stored; simpl; [reflexivity|]. rewrite fmap_empty. reflexivity. Qed.

Lemma incrementUnreadCount_refines contactId size w :
  plain_in (ledger w) contactId ->
  0 <= unread w contactId + size <= 2 ^ 53 ->
  Precise.incrementUnreadCount contactId (Some size)
    (as_item (unreadCounts (localStorage w)))
  = as_item (unreadCounts
              (localStorage (exec (incrementUnreadCount contactId (Some size)) w))).
Proof.
  intros Hplain Hsum. unfold Precise.incrementUnreadCount.
  rewrite as_item_ledger. fold (ledger w).
  destruct (getProp_as_item (ledger w) contactId Hplain) as (Hor & _).
  rewrite Hor. cbn [Precise.plus default from_option]. change (id ?x) with x.
  fold (unread w contactId).
  rewrite round_double_exact, written_small by lia.
  unfold exec. rewrite incrementUnreadCount_run. simpl. f_equal.
  rewrite fmap_insert. unfold Precise.setProp. rewrite lookup_fmap.
  destruct (ledger w !! contactId) as [n|] eqn:E; simpl; [reflexivity|].
  destruct Hplain as [Hp|[x Hx]]; [|congruence].
  rewrite (not_inherited_not_proto _ Hp). reflexivity.
Qed.

Lemma clearUnreadCount_refines contactId w :
  plain_in (ledger w) contactId ->
  Precise.clearUnreadCount contactId (as_item (unreadCounts (localStorage w)))
  = as_item (unreadCounts (localStorage (exec (clearUnreadCount contactId) w))).
Proof.
  intros Hplain. unfold Precise.clearUnreadCount.
  rewrite as_item_ledger. fold (ledger w).
  destruct (getProp_as_item (ledger w) contactId Hplain) as (_ & ->).
  unfold exec. destruct (count_truthy (ledger w !! contactId)) eqn:E.
  - rewrite (clearUnreadCount_truthy _ _ E). simpl. f_equal.
    rewrite fmap_delete. reflexivity.
  - rewrite (clearUnreadCount_falsy _ _ E). reflexivity.
Qed.

(** What the code does with an id that names an inherited property and
    with a count at 2^53. *)
Lemma constructor_count_is_text :
  Precise.incrementUnreadCount (js "constructor") (Some 1) None
  = Some {[ js "constructor" :=
            Precise.Text (Precise.Plus (Precise.OfInherited (js "constructor")) 1) ]}.
Proof. vm_compute. reflexivity. Qed.

Lemma proto_count_is_dropped :
  Precise.incrementUnreadCount (js "__proto__") (Some 1) None = Some ∅.
Proof. vm_compute. reflexivity. Qed.

Lemma count_stops_at_2_53 :
  Precise.incrementUnreadCount (js "a") (Some 1)
    (Some {[ js "a" := Precise.Num (2 ^ 53) ]})
  = Some {[ js "a" := Precise.Num (2 ^ 53) ]}.
Proof. vm_compute. reflexivity. Qed.

Lemma order_matters_past_2_53 :
  Precise.unread
    (Precise.increments [(js "a", 1); (js "a", 2)]
       (Some {[ js "a" := Precise.Num (2 ^ 53) ]})) (js "a")
  = Precise.Own (Precise.Num (2 ^ 53 + 2))
  /\ Precise.unread
       (Precise.increments [(js "a", 2); (js "a", 1)]
          (Some {[ js "a" := Precise.Num (2 ^ 53) ]})) (js "a")
     = Precise.Own (Precise.Num (2 ^ 53 + 4)).
Proof. split; vm_compute; reflexivity. Qed.

(** C7 as the specification states it fails: at 2^53 an increment by 1 is
    lost to rounding. *)
Lemma increment_lost_to_rounding : ~ increments_always_add_up.
Proof.
  intros H.
  specialize (H (js "a") [(js "a", 1)] (Some {[ js "a" := Precise.Num (2 ^ 53) ]})
                (2 ^ 53)).
  assert (H1 : Precise.getUnreadCounts (Some {[ js "a" := Precise.Num (2 ^ 53) ]})
               !! js "a" = Some (Precise.Num (2 ^ 53))) by (vm_compute; reflexivity).
  assert (H2 : Forall (fun call : jsstring * Z => 1 <= call.2) [(js "a", 1)])
    by (repeat constructor; simpl; lia).
  specialize (H (or_introl H1) H2). vm_compute in H. discriminate.
Qed.

(** C7. Increments add up as long as the count is a number and stays
    within 2^53: for a contact whose count reads as the number [c], after
    any sequence of [incrementUnreadCount] calls with sizes of at least 1
    whose sizes for that contact, added to [c], do not exceed 2^53, the
    count read is [c] plus those sizes; reordering the calls does not
    change it; the count of an absent key is 0; and a call without a size
    is a call with size 1. *)
Theorem increments_add_up_in_range (contactId : jsstring)
    (calls : list (jsstring * Z)) (stored : Precise.item) (c : Z) :
  Precise.unread stored contactId = Precise.Own (Precise.Num c) ->
  0 <= c ->
  Forall (fun call => 1 <= call.2) calls ->
  c + total_for contactId calls <= 2 ^ 53 ->
  Precise.unread (Precise.increments calls stored) contactId
  = Precise.Own (Precise.Num (c + total_for contactId calls))
  /\ (forall calls', Permutation calls calls' ->
        Precise.unread (Precise.increments calls' stored) contactId
        = Precise.unread (Precise.increments calls stored) contactId)
  /\ (Precise.getUnreadCounts stored !! contactId = None -> c = 0)
  /\ Precise.incrementUnreadCount contactId None
     = Precise.incrementUnreadCount contactId (Some 1).
Proof.
  intros Hread Hc Hall Hsum.
  split; [apply unread_after_increments_in_range; assumption|].
  split; [|split; [|reflexivity]].
  - intros calls' Hp.
    rewrite (unread_after_increments_in_range calls contactId stored c)
      by assumption.
    rewrite (unread_after_increments_in_range calls' contactId stored c);
      [|assumption|assumption| |].
    + rewrite (total_for_perm _ _ _ Hp). reflexivity.
    + eapply Permutation_Forall; eassumption.
    + rewrite <- (total_for_perm _ _ _ Hp). exact Hsum.
  - intros E. apply (unread_number_cases _ _ _ Hread). exact E.
Qed.

(** C8 as the specification states it fails on an id that names an
    inherited property: for [constructor] and no stored ledger the test of
    line 33 finds the inherited function, an empty ledger is saved where
    none was, and the count read afterwards is that function, not 0. *)
Lemma inherited_id_survives_clear : ~ clear_as_specified.
Proof.
  intros H. destruct (H (js "constructor") None) as (_ & Hkeep & _).
  assert (E : Precise.getUnreadCounts None !! js "constructor" = None)
    by (vm_compute; reflexivity).
  specialize (Hkeep E). vm_compute in Hkeep. discriminate.
Qed.

Lemma inherited_id_reads_function :
  Precise.unread (Precise.clearUnreadCount (js "constructor") None) (js "constructor")
  = Precise.Inherited (js "constructor").
Proof. vm_compute. reflexivity. Qed.

Lemma stored_zero_is_kept :
  Precise.clearUnreadCount (js "a") (Some {[ js "a" := Precise.Num 0 ]})
  = Some {[ js "a" := Precise.Num 0 ]}.
Proof. vm_compute. reflexivity. Qed.

(** C8, as the code has it. For an id that names no inherited property:
    when the value stored under the key is truthy, [clearUnreadCount] saves
    the ledger without the key; when the key is absent, or holds zero or
    [null], it saves nothing; in every case the count read afterwards is
    0. *)
Theorem clear_removes_truthy_key (contactId : jsstring) (stored : Precise.item) :
  inherited contactId = false ->
  (forall v,
     Precise.getUnreadCounts stored !! contactId = Some v ->
     Precise.truthy (Precise.Own v) = true ->
     Precise.clearUnreadCount contactId stored
     = Some (delete contactId (Precise.getUnreadCounts stored))
     /\ Precise.getUnreadCounts (Precise.clearUnreadCount contactId stored)
          !! contactId = None)
  /\ (Precise.getUnreadCounts stored !! contactId = None
      \/ Precise.getUnreadCounts stored !! contactId = Some (Precise.Num 0)
      \/ Precise.getUnreadCounts stored !! contactId = Some Precise.Null ->
      Precise.clearUnreadCount contactId stored = stored)
  /\ Precise.unread (Precise.clearUnreadCount contactId stored) contactId
     = Precise.Own (Precise.Num 0).
Proof.
  intros Hplain. split; [|split].
  - intros v E Hv. unfold Precise.clearUnreadCount, Precise.getProp.
    rewrite E, Hv. split; [reflexivity|].
    cbn [Precise.getUnreadCounts default from_option]. change (id ?x) with x.
    apply lookup_delete_eq.
  - unfold Precise.clearUnreadCount, Precise.getProp.
    intros [E|[E|E]]; rewrite E; [rewrite Hplain|..]; reflexivity.
  - apply unread_after_clear_plain. exact Hplain.
Qed.

(** ** Eligibility *)



(** ** Visibility *)

(** C9. While the page is hidden the handler returns at once: it starts
    nothing, performs no storage access at all (nothing is loaded) and
    leaves the world, guard flags and timers included, as it was. *)
Theorem tick_hidden (w : World) :
  hidden w = true -> tick w = (Normal None, w, []).
Proof.
  intros H. unfold tick, bind, document_hidden. rewrite H. reflexivity.
Qed.

(** ** Reply parsing *)

Lemma filter_not_blank_strings l :
  forallb is_string l = true ->
  filter_not_blank l = Normal (List.filter (fun e => negb (is_blank e)) l).
Proof.
  induction l as [|m r IH]; simpl; [reflexivity|].
  intros H. apply andb_prop in H as [Hm Hr].
  destruct m; try discriminate. simpl. rewrite (IH Hr); simpl.
  destruct (jsstring_eqb (JS.trim s) []); reflexivity.
Qed.

Lemma filter_not_blank_throws l :
  forallb is_string l = false -> filter_not_blank l = Throw TypeError.
Proof.
  induction l as [|m r IH]; simpl; [discriminate|].
  intros H. destruct m; simpl in *; try reflexivity.
  rewrite (IH H). reflexivity.
Qed.

Lemma replies_field_getProp v l :
  replies_field v = Some l ->
  JS.truthy (Some v) = true
  /\ JS.getProp (Some v) (js "replies") = Normal (Some (JArr l)).
Proof.
  destruct v; simpl; try discriminate.
  destruct (JS.lookup_member _ _) as [[| | | |l'|]|]; try discriminate.
  intros [= ->]. split; reflexivity.
Qed.

Lemma replies_field_None v :
  replies_field v = None ->
  JS.truthy (Some v) = false
  \/ exists r, JS.getProp (Some v) (js "replies") = Normal r /\ JS.isArray r = false.
Proof.
  destruct v; simpl; intros H.
  - left; reflexivity.
  - right; eexists; split; reflexivity.
  - right; eexists; split; reflexivity.
  - right; eexists; split; reflexivity.
  - right; eexists; split; reflexivity.
  - right. eexists; split; [reflexivity|].
    destruct (JS.lookup_member _ _) as [[| | | |l'|]|]; try reflexivity.
    discriminate.
Qed.

Lemma parseReplies_cases raw :
  parseReplies (Some (JStr raw)) = lenient_replies raw.
Proof.
  unfold parseReplies, lenient_replies.
  change (JS.ToString (Some (JStr raw))) with raw.
  destruct (JSON.parse raw) as [v|e]; [|reflexivity].
  cbv beta iota delta [cbind].
  destruct (replies_field v) as [l|] eqn:Hf.
  - apply replies_field_getProp in Hf as [Ht Hg]. rewrite Ht, Hg.
    cbv beta iota delta [JS.isArray].
    destruct (forallb is_string l) eqn:Hs.
    + rewrite (filter_not_blank_strings _ Hs). reflexivity.
    + rewrite (filter_not_blank_throws _ Hs). reflexivity.
  - apply replies_field_None in Hf as [Ht|(r & Hg & Hr)].
    + rewrite Ht. reflexivity.
    + destruct (JS.truthy (Some v)); [|reflexivity].
      rewrite Hg, Hr. reflexivity.
Qed.

(** C2, as the code has it. The reply list of a raw response text is: the
    entries of [replies] without the blank ones, when the text parses to an
    object whose [replies] is an array of strings; the whole text as the
    one reply otherwise, that is on a parse failure, without an array
    [replies], and with an array [replies] that holds something other than
    strings. The four examples of the specification come out as given. *)
Theorem parse_replies_lenient (raw : jsstring) :
  parseReplies (Some (JStr raw)) = lenient_replies raw
  /\ parseReplies
       (Some (JStr (js "{" ++ quoted "replies" ++ js ":[" ++ quoted "A" ++ js ","
                      ++ quoted "B" ++ js "]}")))
     = [Some (JStr (js "A")); Some (JStr (js "B"))]
  /\ parseReplies (Some (JStr (js "hello"))) = [Some (JStr (js "hello"))]
  /\ parseReplies
       (Some (JStr (js "{" ++ quoted "replies" ++ js ":[" ++ quoted "" ++ js ","
                      ++ quoted "  " ++ js "," ++ quoted "C" ++ js "]}")))
     = [Some (JStr (js "C"))]
  /\ parseReplies (Some (JStr (js "{" ++ quoted "foo" ++ js ":1}")))
     = [Some (JStr (js "{" ++ quoted "foo" ++ js ":1}"))].
Proof.
  split; [apply parseReplies_cases|].
  repeat split; vm_compute; reflexivity.
Qed.

(** C2 as the specification states it fails on a response whose [replies]
    holds a number: the code gives the whole text, not the entry. *)
Lemma parse_replies_spec_fails :
  ~ (forall raw, parseReplies (Some (JStr raw)) = spec_replies raw).
Proof.
  intros H.
  specialize (H (js "{" ++ quoted "replies" ++ js ":[1]}")).
  vm_compute in H. discriminate.
Qed.

(** ** Appending replies *)

Lemma same_page_refl w : same_page w w.
Proof. repeat split. Qed.

Lemma stamped_length t n l : length (stamped t n l) = length l.
Proof. revert n; induction l; intros n; simpl; auto. Qed.

Lemma newMessages_run l w :
  newMessages l w =
  (Normal (stamped (clock w) (draws w) l),
   with_draws (draws w + length l) w, []).
Proof.
  revert w; induction l as [|c r IH]; intros w; simpl.
  - unfold ret, with_draws. rewrite Nat.add_0_r. destruct w; reflexivity.
  - unfold bind, Date_now, Math_random; simpl. rewrite IH; simpl.
    unfold with_draws; simpl. repeat f_equal. lia.
Qed.


Lemma appendReplies_cons contactId c r w :
  exists w' tr,
    appendReplies contactId (c :: r) w = (Normal tt, w', tr)
    /\ same_page w w'
    /\ transcript (stored_chats w') contactId
       = transcript (stored_chats w) contactId
         ++ stamped (clock w) (draws w) (c :: r)
    /\ (forall other, other <> contactId ->
          stored_chats w' !! other = stored_chats w !! other)
    /\ unread w' contactId = unread w contactId + Z.of_nat (length (c :: r))
    /\ (forall other, other <> contactId -> unread w' other = unread w other).
Proof.
  unfold appendReplies.
  change (0 <? length (c :: r))%nat with true. cbv iota.
  unfold bind at 1. unfold ls_getItem at 1. cbv beta iota.
  unfold bind at 1. rewrite newMessages_run. cbv beta iota.
  unfold bind at 1. unfold ls_setItem at 1. cbv beta iota.
  rewrite incrementUnreadCount_run.
  eexists _, _. split; [reflexivity|].
  fold (stored_chats w).
  set (base := match stored_chats w !! contactId with
               | Some _ => stored_chats w
               | None => <[contactId:=[]]> (stored_chats w)
               end).
  assert (Hbase : default [] (base !! contactId) = transcript (stored_chats w) contactId).
  { unfold base, transcript.
    destruct (stored_chats w !! contactId) eqn:E; [rewrite E; reflexivity|].
    rewrite lookup_insert_eq. reflexivity. }
  assert (Hother : forall other, other <> contactId ->
            base !! other = stored_chats w !! other).
  { intros other Hne. unfold base.
    destruct (stored_chats w !! contactId); [reflexivity|].
    rewrite lookup_insert_ne by done. reflexivity. }
  split; [repeat split|].
  split.
  { unfold stored_chats at 1, transcript at 1; simpl.
    rewrite lookup_insert_eq; simpl. rewrite Hbase. reflexivity. }
  split.
  { intros other Hne. unfold stored_chats at 1; simpl.
    rewrite lookup_insert_ne by done. apply Hother; done. }
  split.
  { unfold unread at 1, ledger at 1; simpl. rewrite lookup_insert_eq.
    rewrite count_or_zero_Some, stamped_length. reflexivity. }
  { intros other Hne. unfold unread at 1, ledger at 1; simpl.
    rewrite lookup_insert_ne by done. reflexivity. }
Qed.

Lemma appendReplies_total contactId l w :
  exists w' tr, appendReplies contactId l w = (Normal tt, w', tr) /\ same_page w w'.
Proof.
  destruct l as [|c r].
  - exists w, []. split; [reflexivity|apply same_page_refl].
  - destruct (appendReplies_cons contactId c r w) as (w' & tr & H & Hs & _).
    eauto.
Qed.

Lemma triggerGlobalAiReply_resume_Normal contactId o rawReply w :
  callGlobalAiApi_response o = Normal rawReply ->
  triggerGlobalAiReply_resume contactId o w
  = appendReplies contactId (parseReplies rawReply) w.
Proof.
  intros H. unfold triggerGlobalAiReply_resume, try_catch, bind, lift.
  rewrite H.
  destruct (appendReplies_total contactId (parseReplies rawReply) w)
    as (w' & tr & -> & _).
  reflexivity.
Qed.

Lemma triggerGlobalAiReply_resume_Throw contactId o e w :
  callGlobalAiApi_response o = Throw e ->
  triggerGlobalAiReply_resume contactId o w = (Normal tt, w, []).
Proof.
  intros H. unfold triggerGlobalAiReply_resume, try_catch, bind, lift.
  rewrite H. reflexivity.
Qed.

Lemma triggerGlobalAiReply_resume_total contactId o w :
  exists w' tr,
    triggerGlobalAiReply_resume contactId o w = (Normal tt, w', tr)
    /\ same_page w w'.
Proof.
  destruct (callGlobalAiApi_response o) as [rawReply|e] eqn:E.
  - rewrite (triggerGlobalAiReply_resume_Normal _ _ _ _ E).
    apply appendReplies_total.
  - rewrite (triggerGlobalAiReply_resume_Throw _ _ _ _ E).
    exists w, []. split; [reflexivity|apply same_page_refl].
Qed.


(** ** One run of the loop *)

Lemma after_scan_nil w : after_scan w [] None = w.
Proof.
  unfold after_scan, cooldowns; simpl. rewrite app_nil_r. destruct w; reflexivity.
Qed.

Lemma callGlobalAiApi_request_frame contactId w :
  exists r tr, callGlobalAiApi_request contactId w = (r, w, tr).
Proof.
  unfold callGlobalAiApi_request, bind, ls_getItem, throw, ret, Date_now.
  destruct (negb _ || negb _); [eauto|].
  destruct (find _ _); eauto.
Qed.

Lemma triggerGlobalAiReply_request_frame contactId w :
  exists r tr, triggerGlobalAiReply_request contactId w = (Normal r, w, tr).
Proof.
  unfold triggerGlobalAiReply_request, try_catch, bind.
  destruct (callGlobalAiApi_request_frame contactId w) as ([r|e] & tr & ->);
    simpl; eauto.
Qed.


Lemma processingFlag_inj a b : processingFlag a = processingFlag b -> a = b.
Proof. unfold processingFlag. apply app_inv_head. Qed.

Lemma scan_cons allSettings allChats contact rest :
  scan allSettings allChats (contact :: rest) =
  (now <- Date_now ;;
   if due allSettings allChats now contact then
     admitted <- tryAdmit (Contact.id contact) ;;
     if admitted then
       req <- try_catch (triggerGlobalAiReply_request (Contact.id contact))
                (fun e => ret None) ;;
       match req with
       | Some req =>
           ret (Some (mkSuspended allSettings allChats (Contact.id contact) req rest))
       | None =>
           release_later (Contact.id contact) ;;
           scan allSettings allChats rest
       end
     else scan allSettings allChats rest
   else scan allSettings allChats rest).
Proof. reflexivity. Qed.

(** What one run of the loop does, case by case on its first contact. *)
Lemma scan_skip allSettings allChats contact rest w :
  due allSettings allChats (clock w) contact = false ->
  scan allSettings allChats (contact :: rest) w = scan allSettings allChats rest w.
Proof.
  intros H. rewrite scan_cons. unfold bind at 1, Date_now. rewrite H.
  destruct (scan _ _ rest w) as [[r w2] t2]. reflexivity.
Qed.

Lemma scan_held allSettings allChats contact rest w :
  due allSettings allChats (clock w) contact = true ->
  flag_set w (processingFlag (Contact.id contact)) = true ->
  scan allSettings allChats (contact :: rest) w =
  let '(r, w2, t2) := scan allSettings allChats rest w in
  (r, w2, SsGet (processingFlag (Contact.id contact)) :: t2).
Proof.
  unfold flag_set. intros H Hf. rewrite scan_cons.
  unfold bind, Date_now, tryAdmit, bind, ss_getItem. rewrite H, Hf; simpl.
  destruct (scan _ _ rest w) as [[r w2] t2]. reflexivity.
Qed.

Lemma scan_waits allSettings allChats contact rest w req tr :
  due allSettings allChats (clock w) contact = true ->
  flag_set w (processingFlag (Contact.id contact)) = false ->
  let w1 := with_sessionStorage
              (insert (processingFlag (Contact.id contact)) (js "true")) w in
  triggerGlobalAiReply_request (Contact.id contact) w1 = (Normal (Some req), w1, tr) ->
  scan allSettings allChats (contact :: rest) w =
  (Normal (Some (mkSuspended allSettings allChats (Contact.id contact) req rest)),
   w1,
   SsGet (processingFlag (Contact.id contact))
     :: SsSet (processingFlag (Contact.id contact)) :: tr ++ []).
Proof.
  intros H Hf w1 Hr. unfold flag_set in Hf. rewrite scan_cons.
  unfold bind, Date_now, tryAdmit, bind, ss_getItem, ss_setItem, try_catch.
  rewrite H, Hf; simpl. fold w1. rewrite Hr. reflexivity.
Qed.

Lemma scan_fails allSettings allChats contact rest w tr :
  due allSettings allChats (clock w) contact = true ->
  flag_set w (processingFlag (Contact.id contact)) = false ->
  let w1 := with_sessionStorage
              (insert (processingFlag (Contact.id contact)) (js "true")) w in
  triggerGlobalAiReply_request (Contact.id contact) w1 = (Normal None, w1, tr) ->
  scan allSettings allChats (contact :: rest) w =
  let '(r, w2, t2) :=
    scan allSettings allChats rest
      (with_timers
         (fun l => l ++ [(clock w + 60000, processingFlag (Contact.id contact))])
         w1) in
  (r, w2,
   SsGet (processingFlag (Contact.id contact))
     :: SsSet (processingFlag (Contact.id contact))
     :: tr ++ TimerSet 60000 (processingFlag (Contact.id contact)) :: t2).
Proof.
  intros H Hf w1 Hr. unfold flag_set in Hf. rewrite scan_cons.
  unfold bind, Date_now, tryAdmit, bind, ss_getItem, ss_setItem, try_catch,
    release_later, setTimeout_removeItem.
  rewrite H, Hf; simpl. fold w1. rewrite Hr; simpl.
  destruct (scan _ _ rest _) as [[r w2] t2]. reflexivity.
Qed.

Lemma flag_set_insert_eq w key :
  flag_set (with_sessionStorage (insert key (js "true")) w) key = true.
Proof. unfold flag_set; simpl. rewrite lookup_insert_eq. reflexivity. Qed.

Lemma flag_set_insert_ne w key key' :
  key <> key' ->
  flag_set (with_sessionStorage (insert key (js "true")) w) key' = flag_set w key'.
Proof. intros H. unfold flag_set; simpl. rewrite lookup_insert_ne by done. reflexivity. Qed.

Lemma flag_set_with_timers f w key :
  flag_set (with_timers f w) key = flag_set w key.
Proof. reflexivity. Qed.

(** The shape of every run of the loop: it returns normally; the contacts
    it admitted were due and had no flag; they are distinct; all but the
    last have their timer, and the run waits on the last, if on any. *)
Lemma scan_run allSettings allChats contacts w :
  exists finished waiting tr,
    scan allSettings allChats contacts w
    = (Normal waiting, after_scan w finished waiting, tr)
    /\ NoDup (finished ++ waiting_on waiting)
    /\ (forall c, c ∈ finished ++ waiting_on waiting ->
          flag_set w (processingFlag c) = false)
    /\ (forall c, c ∈ finished ++ waiting_on waiting ->
          exists contact, contact ∈ contacts /\ Contact.id contact = c
                          /\ due allSettings allChats (clock w) contact = true)
    /\ match waiting with
       | Some s =>
           exists pre contact,
             contacts = pre ++ contact :: s_rest s
             /\ Contact.id contact = s_contactId s
             /\ s_allSettings s = allSettings /\ s_allChats s = allChats
             /\ (forall c, c ∈ finished -> c ∈ map Contact.id pre)
       | None => True
       end.
Proof.
  revert w. induction contacts as [|contact rest IH]; intros w.
  { exists [], None, []. simpl. rewrite after_scan_nil.
    split; [reflexivity|]. split; [constructor|].
    split; [intros c Hc; inversion Hc|]. split; [intros c Hc; inversion Hc|exact I]. }
  destruct (due allSettings allChats (clock w) contact) eqn:Hdue.
  2: {
    rewrite (scan_skip _ _ _ _ _ Hdue).
    destruct (IH w) as (fin & wt & tr & Heq & Hnd & Hunset & Hdue' & Hw).
    exists fin, wt, tr. split; [exact Heq|]. split; [exact Hnd|].
    split; [exact Hunset|]. split.
    - intros c Hc. destruct (Hdue' c Hc) as (x & Hx & Hid & Hd).
      exists x. split; [right; exact Hx|auto].
    - destruct wt as [s|]; [|exact I].
      destruct Hw as (pre & x & -> & Hid & HS & HC & Hpre).
      exists (contact :: pre), x. repeat split; auto.
      intros c Hc. simpl. right. auto. }
  destruct (flag_set w (processingFlag (Contact.id contact))) eqn:Hflag.
  { rewrite (scan_held _ _ _ _ _ Hdue Hflag).
    destruct (IH w) as (fin & wt & tr & Heq & Hnd & Hunset & Hdue' & Hw).
    rewrite Heq.
    exists fin, wt, (SsGet (processingFlag (Contact.id contact)) :: tr).
    split; [reflexivity|]. split; [exact Hnd|]. split; [exact Hunset|]. split.
    - intros c Hc. destruct (Hdue' c Hc) as (x & Hx & Hid & Hd).
      exists x. split; [right; exact Hx|auto].
    - destruct wt as [s|]; [|exact I].
      destruct Hw as (pre & x & -> & Hid & HS & HC & Hpre).
      exists (contact :: pre), x. repeat split; auto.
      intros c Hc. simpl. right. auto. }
  set (w1 := with_sessionStorage
               (insert (processingFlag (Contact.id contact)) (js "true")) w).
  destruct (triggerGlobalAiReply_request_frame (Contact.id contact) w1)
    as ([req|] & tr & Hreq).
  { rewrite (scan_waits _ _ _ _ _ _ _ Hdue Hflag Hreq).
    eexists [], (Some _), _. split.
    { f_equal. f_equal. unfold after_scan, w1, with_sessionStorage; simpl.
      unfold cooldowns; simpl. rewrite app_nil_r. reflexivity. }
    simpl. split; [apply NoDup_singleton|]. split.
    { intros c Hc. apply list_elem_of_singleton in Hc as ->. exact Hflag. }
    split.
    { intros c Hc. apply list_elem_of_singleton in Hc as ->.
      exists contact. split; [left|auto]. }
    exists [], contact. repeat split.
    intros c Hc. inversion Hc. }
  rewrite (scan_fails _ _ _ _ _ _ Hdue Hflag Hreq). fold w1.
  set (w2 := with_timers
    (fun l => l ++ [(clock w + 60000, processingFlag (Contact.id contact))]) w1).
  destruct (IH w2) as (fin & wt & tr2 & Heq & Hnd & Hunset & Hdue' & Hw).
  rewrite Heq.
  assert (Hfresh : Contact.id contact ∉ fin ++ waiting_on wt).
  { intros Hin. apply Hunset in Hin.
    unfold w2 in Hin. rewrite flag_set_with_timers in Hin.
    unfold w1 in Hin. rewrite flag_set_insert_eq in Hin. discriminate. }
  eexists (Contact.id contact :: fin), wt, _. split.
  { f_equal. f_equal. unfold after_scan, w2, w1, with_timers, with_sessionStorage;
      simpl. unfold cooldowns; simpl. rewrite <- app_assoc. reflexivity. }
  split; [simpl; constructor; assumption|]. split.
  { intros c Hc. simpl in Hc. apply elem_of_cons in Hc as [->|Hc]; [exact Hflag|].
    specialize (Hunset c Hc). unfold w2 in Hunset.
    rewrite flag_set_with_timers in Hunset. unfold w1 in Hunset.
    rewrite flag_set_insert_ne in Hunset; [exact Hunset|].
    intros E. apply processingFlag_inj in E. subst c. contradiction. }
  split.
  { intros c Hc. simpl in Hc. apply elem_of_cons in Hc as [->|Hc].
    - exists contact. split; [left|auto].
    - destruct (Hdue' c Hc) as (x & Hx & Hid & Hd).
      exists x. split; [right; exact Hx|auto]. }
  destruct wt as [s|]; [|exact I].
  destruct Hw as (pre & x & -> & Hid & HS & HC & Hpre).
  exists (contact :: pre), x. repeat split; auto.
  intros c Hc. simpl. apply elem_of_cons in Hc as [->|Hc]; [left|right; auto].
Qed.

Lemma admit_all_lookup ids ss key :
  str_truthy (admit_all ids ss !! key)
  = bool_decide (key ∈ map processingFlag ids) || str_truthy (ss !! key).
Proof.
  revert ss. induction ids as [|c r IH]; intros ss; simpl; [reflexivity|].
  unfold admit_all in *; simpl. rewrite IH.
  destruct (decide (key = processingFlag c)) as [->|Hne].
  - rewrite lookup_insert_eq.
    rewrite (bool_decide_eq_true_2 (processingFlag c ∈ _ :: _)) by left.
    simpl. apply orb_true_r.
  - rewrite lookup_insert_ne by done.
    destruct (bool_decide (key ∈ map processingFlag r)) eqn:E.
    + apply bool_decide_eq_true in E.
      rewrite bool_decide_eq_true_2 by (right; exact E). reflexivity.
    + apply bool_decide_eq_false in E.
      rewrite bool_decide_eq_false_2; [reflexivity|].
      intros Hin. apply elem_of_cons in Hin as [?|?]; contradiction.
Qed.

Lemma flag_set_after_scan w finished waiting key :
  flag_set (after_scan w finished waiting) key = true <->
  key ∈ map processingFlag (finished ++ waiting_on waiting)
  \/ flag_set w key = true.
Proof.
  unfold flag_set, after_scan; simpl. rewrite admit_all_lookup.
  rewrite orb_true_iff, bool_decide_eq_true. reflexivity.
Qed.

Lemma timers_after_scan w finished waiting :
  map snd (timers (after_scan w finished waiting))
  = map snd (timers w) ++ map processingFlag finished.
Proof.
  unfold after_scan, cooldowns; simpl. rewrite map_app, map_map. reflexivity.
Qed.

Lemma tick_run w :
  exists finished waiting tr,
    tick w = (Normal waiting, after_scan w finished waiting, tr)
    /\ NoDup (finished ++ waiting_on waiting)
    /\ (forall c, c ∈ finished ++ waiting_on waiting ->
          flag_set w (processingFlag c) = false).
Proof.
  unfold tick, bind, document_hidden, ls_getItem.
  destruct (hidden w) eqn:Hh.
  - exists [], None, []. rewrite after_scan_nil. unfold ret.
    split; [reflexivity|]. split; [constructor|]. intros c Hc; inversion Hc.
  - destruct (scan_run (default ∅ (chatSettings (localStorage w)))
                (default ∅ (chats (localStorage w)))
                (default [] (contacts (localStorage w))) w)
      as (fin & wt & tr & Heq & Hnd & Hunset & _).
    rewrite Heq. eexists fin, wt, _. split; [reflexivity|]. split; assumption.
Qed.

Lemma resume_unfold s o w w1 tr1 :
  triggerGlobalAiReply_resume (s_contactId s) o w = (Normal tt, w1, tr1) ->
  resume s o w =
  let '(r, w2, t2) :=
    scan (s_allSettings s) (s_allChats s) (s_rest s) (released (s_contactId s) w1) in
  (r, w2, tr1 ++ TimerSet 60000 (processingFlag (s_contactId s)) :: t2).
Proof.
  intros H. unfold resume, bind, try_catch, release_later, setTimeout_removeItem.
  rewrite H. fold (released (s_contactId s) w1).
  destruct (scan _ _ _ _) as [[r w2] t2]. reflexivity.
Qed.

Lemma resume_run s o w :
  exists w1 tr1 finished waiting tr,
    triggerGlobalAiReply_resume (s_contactId s) o w = (Normal tt, w1, tr1)
    /\ same_page w w1
    /\ resume s o w
       = (Normal waiting,
          after_scan (released (s_contactId s) w1) finished waiting, tr)
    /\ NoDup (finished ++ waiting_on waiting)
    /\ (forall c, c ∈ finished ++ waiting_on waiting ->
          flag_set w (processingFlag c) = false).
Proof.
  destruct (triggerGlobalAiReply_resume_total (s_contactId s) o w)
    as (w1 & tr1 & H1 & Hsame).
  destruct (scan_run (s_allSettings s) (s_allChats s) (s_rest s)
              (released (s_contactId s) w1))
    as (fin & wt & tr & Heq & Hnd & Hunset & _).
  exists w1, tr1, fin, wt. eexists. split; [exact H1|]. split; [exact Hsame|].
  split; [rewrite (resume_unfold _ _ _ _ _ H1), Heq; reflexivity|].
  split; [exact Hnd|].
  intros c Hc. specialize (Hunset c Hc).
  unfold released in Hunset. rewrite flag_set_with_timers in Hunset.
  destruct Hsame as (Hss & _). unfold flag_set in *. rewrite <- Hss. exact Hunset.
Qed.

(** ** The guard over time *)

Lemma map_fmap {A B} (f : A -> B) (l : list A) : map f l = f <$> l.
Proof. induction l as [|a l IH]; [reflexivity|]. simpl. rewrite IH. reflexivity. Qed.

Lemma NoDup_flags ids : NoDup ids -> NoDup (map processingFlag ids).
Proof.
  intros H. rewrite map_fmap. apply NoDup_fmap_2; [|exact H].
  intros a b. apply processingFlag_inj.
Qed.

Lemma elem_of_flags key ids :
  key ∈ map processingFlag ids <-> exists c, key = processingFlag c /\ c ∈ ids.
Proof. rewrite map_fmap. apply list_elem_of_fmap. Qed.

Lemma after_scan_guard (F : list jsstring) w finished waiting :
  NoDup (F ++ map snd (timers w)) ->
  (forall key, key ∈ F ++ map snd (timers w) -> flag_set w key = true) ->
  NoDup (finished ++ waiting_on waiting) ->
  (forall c, c ∈ finished ++ waiting_on waiting ->
     flag_set w (processingFlag c) = false) ->
  NoDup ((F ++ map processingFlag (waiting_on waiting))
         ++ map snd (timers (after_scan w finished waiting)))
  /\ forall key,
       key ∈ (F ++ map processingFlag (waiting_on waiting))
             ++ map snd (timers (after_scan w finished waiting)) ->
       flag_set (after_scan w finished waiting) key = true.
Proof.
  intros Hnd Hset Hnew Hunset.
  rewrite timers_after_scan.
  assert (Hnf : NoDup (map processingFlag (finished ++ waiting_on waiting)))
    by (apply NoDup_flags; exact Hnew).
  assert (Hdisj : forall key,
            key ∈ map processingFlag (finished ++ waiting_on waiting) ->
            key ∉ F ++ map snd (timers w)).
  { intros key Hin Hold. apply elem_of_flags in Hin as (c & -> & Hc).
    specialize (Hset _ Hold). rewrite (Hunset c Hc) in Hset. discriminate. }
  rewrite map_app in Hnf, Hdisj.
  split.
  - apply NoDup_app in Hnd as (HF & HFT & HT).
    apply NoDup_app in Hnf as (Hfin & Hfw & Hw).
    repeat (rewrite NoDup_app || setoid_rewrite elem_of_app).
    repeat split; auto.
    + intros x Hx Hx'. apply (Hdisj x); rewrite !elem_of_app; auto.
    + intros x [Hx|Hx] [Hx'|Hx'].
      * eapply HFT; eauto.
      * apply (Hdisj x); rewrite !elem_of_app; auto.
      * apply (Hdisj x); rewrite !elem_of_app; auto.
      * eapply Hfw; eauto.
    + intros x Hx Hx'. apply (Hdisj x); rewrite !elem_of_app; auto.
  - intros key Hin. apply flag_set_after_scan. rewrite map_app.
    rewrite !elem_of_app in Hin. rewrite !elem_of_app.
    destruct Hin as [[?|?]|[?|?]]; auto;
      right; apply Hset; rewrite elem_of_app; auto.
Qed.

Lemma in_flight_app l1 l2 :
  map (fun s => processingFlag (s_contactId s)) (l1 ++ l2)
  = map (fun s => processingFlag (s_contactId s)) l1
    ++ map (fun s => processingFlag (s_contactId s)) l2.
Proof. apply map_app. Qed.

Lemma in_flight_opt r :
  map (fun s => processingFlag (s_contactId s)) (opt_list r)
  = map processingFlag (waiting_on r).
Proof. destruct r; reflexivity. Qed.

Lemma guard_inv_tick sys r w' tr :
  guard_inv sys ->
  tick (world sys) = (Normal r, w', tr) ->
  guard_inv (mkSystem w' (running sys ++ opt_list r)).
Proof.
  intros [Hnd Hset] Ht.
  destruct (tick_run (world sys)) as (fin & wt & tr' & Heq & Hnew & Hunset).
  rewrite Heq in Ht. injection Ht as <- <- <-.
  unfold guard_inv, owners, in_flight, cooling_down in *; simpl.
  rewrite in_flight_app, in_flight_opt.
  apply (after_scan_guard _ (world sys) fin wt); assumption.
Qed.

Lemma guard_inv_response sys pre s post o r w' tr :
  guard_inv sys ->
  running sys = pre ++ s :: post ->
  resume s o (world sys) = (Normal r, w', tr) ->
  guard_inv (mkSystem w' (pre ++ post ++ opt_list r)).
Proof.
  intros [Hnd Hset] Hrun Hres.
  destruct (resume_run s o (world sys))
    as (w1 & tr1 & fin & wt & tr' & _ & Hsame & Heq & Hnew & Hunset).
  rewrite Heq in Hres. injection Hres as <- <- <-.
  destruct Hsame as (Hss & Htm & Hck & _).
  unfold guard_inv, owners, in_flight, cooling_down in *; simpl.
  rewrite Hrun in Hnd, Hset.
  rewrite in_flight_app in Hnd, Hset. simpl in Hnd, Hset.
  rewrite app_assoc, in_flight_app, in_flight_opt.
  set (F := map (fun s => processingFlag (s_contactId s)) (pre ++ post)).
  set (w2 := released (s_contactId s) w1).
  assert (Ht2 : map snd (timers w2)
                = map snd (timers (world sys)) ++ [processingFlag (s_contactId s)]).
  { unfold w2, released; simpl. rewrite map_app, Htm. reflexivity. }
  apply (after_scan_guard F w2 fin wt); auto.
  - rewrite Ht2. unfold F. rewrite in_flight_app.
    eapply NoDup_Permutation_proper; [|exact Hnd].
    rewrite <- !app_assoc. apply Permutation_app_head.
    simpl. rewrite (Permutation_app_comm _ [_]). simpl.
    symmetry. apply Permutation_middle.
  - intros key Hin. unfold w2, released. rewrite flag_set_with_timers.
    unfold flag_set. rewrite Hss. apply Hset.
    rewrite Ht2 in Hin. unfold F in Hin. rewrite in_flight_app in Hin.
    rewrite !elem_of_app in Hin. rewrite !elem_of_app, elem_of_cons.
    destruct Hin as [[?|?]|[?|Hk]]; auto.
    apply list_elem_of_singleton in Hk. auto.
  - intros c Hc. unfold w2, released. rewrite flag_set_with_timers.
    unfold flag_set. rewrite Hss. apply Hunset. exact Hc.
Qed.

Lemma guard_inv_timeout sys pre d key post :
  guard_inv sys ->
  timers (world sys) = pre ++ (d, key) :: post ->
  guard_inv
    (mkSystem
       (with_timers (fun _ => pre ++ post)
          (with_sessionStorage (delete key) (world sys)))
       (running sys)).
Proof.
  intros [Hnd Hset] Ht.
  unfold guard_inv, owners, in_flight, cooling_down in *; simpl.
  rewrite Ht in Hnd, Hset. rewrite map_app in Hnd, Hset. simpl in Hnd, Hset.
  rewrite map_app.
  assert (Hperm : map (fun s => processingFlag (s_contactId s)) (running sys)
                    ++ map snd pre ++ key :: map snd post
                  ≡ₚ key :: map (fun s => processingFlag (s_contactId s)) (running sys)
                    ++ map snd pre ++ map snd post).
  { rewrite !app_assoc. symmetry. apply Permutation_middle. }
  rewrite Hperm in Hnd. apply NoDup_cons in Hnd as [Hkey Hnd].
  split; [exact Hnd|].
  intros key' Hin.
  assert (key' <> key) by (intros ->; contradiction).
  unfold flag_set; simpl. rewrite lookup_delete_ne by done.
  apply Hset. rewrite Hperm. right. exact Hin.
Qed.

Lemma guard_inv_step sys sys' : guard_inv sys -> step sys sys' -> guard_inv sys'.
Proof.
  intros Hinv Hstep. destruct Hstep.
  - eapply guard_inv_tick; eauto.
  - eapply guard_inv_response; eauto.
  - eapply guard_inv_timeout; eauto.
  - exact Hinv.
  - exact Hinv.
Qed.

Lemma guard_inv_steps sys sys' : guard_inv sys -> steps sys sys' -> guard_inv sys'.
Proof.
  intros Hinv Hsteps. induction Hsteps as [|sys1 sys2 sys3 Hs IH Hstep];
    [exact Hinv|].
  exact (guard_inv_step _ _ (IH Hinv) Hstep).
Qed.

Lemma guard_inv_initial sys : initial sys -> guard_inv sys.
Proof.
  intros [Hr Ht]. unfold guard_inv, owners, in_flight, cooling_down.
  rewrite Hr, Ht. simpl. split; [constructor|]. intros key Hin. inversion Hin.
Qed.

Lemma guard_inv_reachable sys : reachable sys -> guard_inv sys.
Proof.
  intros (sys0 & Hinit & Hsteps).
  eapply guard_inv_steps; [apply guard_inv_initial|]; eauto.
Qed.

Lemma clock_after_scan w finished waiting :
  clock (after_scan w finished waiting) = clock w.
Proof. reflexivity. Qed.

Lemma step_clock sys sys' : step sys sys' -> clock (world sys) <= clock (world sys').
Proof.
  intros Hstep. destruct Hstep; simpl; try lia.
  - destruct (tick_run (world sys)) as (fin & wt & tr' & Heq & _).
    rewrite Heq in H. injection H as <- <- <-. simpl. lia.
  - destruct (resume_run s o (world sys))
      as (w1 & tr1 & fin & wt & tr' & _ & Hsame & Heq & _).
    rewrite Heq in H0. injection H0 as <- <- <-. simpl.
    destruct Hsame as (_ & _ & Hck & _). lia.
Qed.

Lemma step_timer_kept sys sys' d key :
  step sys sys' ->
  (d, key) ∈ timers (world sys) ->
  clock (world sys') < d ->
  (d, key) ∈ timers (world sys').
Proof.
  intros Hstep Hin Hlt. destruct Hstep; simpl in *; try exact Hin.
  - destruct (tick_run (world sys)) as (fin & wt & tr' & Heq & _).
    rewrite Heq in H. injection H as <- <- <-. simpl.
    apply elem_of_app. left. exact Hin.
  - destruct (resume_run s o (world sys))
      as (w1 & tr1 & fin & wt & tr' & _ & Hsame & Heq & _).
    rewrite Heq in H0. injection H0 as <- <- <-. simpl.
    destruct Hsame as (_ & Htm & _). rewrite Htm.
    rewrite !elem_of_app. left. left. exact Hin.
  - rewrite H in Hin. rewrite elem_of_app, elem_of_cons in Hin.
    rewrite elem_of_app. destruct Hin as [?|[E|?]]; auto.
    injection E as -> ->. lia.
Qed.

Lemma cooldown_window sys sys' d key :
  guard_inv sys ->
  (d, key) ∈ timers (world sys) ->
  steps sys sys' ->
  clock (world sys') < d ->
  (d, key) ∈ timers (world sys') /\ flag_set (world sys') key = true.
Proof.
  intros Hinv Hin Hsteps. induction Hsteps as [|sys1 sys2 sys3 Hs IH Hstep].
  - intros _. split; [exact Hin|].
    apply Hinv. unfold owners, cooling_down. apply elem_of_app. right.
    rewrite map_fmap. apply list_elem_of_fmap. exists (d, key). auto.
  - intros Hlt. pose proof (step_clock _ _ Hstep) as Hmono.
    destruct (IH Hinv Hin ltac:(lia)) as [Hin2 _].
    pose proof (step_timer_kept _ _ _ _ Hstep Hin2 Hlt) as Hin3.
    split; [exact Hin3|].
    assert (Hinv3 : guard_inv sys3).
    { eapply guard_inv_step; [|exact Hstep]. eapply guard_inv_steps; eauto. }
    apply Hinv3. unfold owners, cooling_down. apply elem_of_app. right.
    rewrite map_fmap. apply list_elem_of_fmap. exists (d, key). auto.
Qed.

Lemma elem_of_cooldowns t c ids :
  c ∈ ids -> (t + 60000, processingFlag c) ∈ cooldowns t ids.
Proof.
  intros H. unfold cooldowns. rewrite map_fmap.
  apply list_elem_of_fmap. exists c. auto.
Qed.

Lemma flag_set_delete w key key' :
  flag_set (with_sessionStorage (delete key) w) key' = true ->
  flag_set w key' = true.
Proof.
  unfold flag_set; simpl. destruct (decide (key = key')) as [->|Hne].
  - rewrite lookup_delete_eq. discriminate.
  - rewrite lookup_delete_ne by done. auto.
Qed.

(** Whenever a step ends an attempt, its timer is among the pending ones,
    due 60000 ms after the time of the step.  An attempt ends in a step
    when its flag was in flight before, or not set before and set after,
    and is not in flight after. *)
Lemma attempt_over_timer sys sys' key :
  step sys sys' ->
  key ∈ in_flight sys
  \/ (flag_set (world sys) key = false /\ flag_set (world sys') key = true) ->
  key ∉ in_flight sys' ->
  (clock (world sys) + 60000, key) ∈ timers (world sys').
Proof.
  intros Hstep Hcase Hout. destruct Hstep; unfold in_flight in *; simpl in *.
  - destruct (tick_run (world sys)) as (fin & wt & tr' & Heq & _).
    rewrite Heq in H. injection H as <- <- <-.
    rewrite in_flight_app, in_flight_opt, elem_of_app in Hout.
    destruct Hcase as [Hin|[Hoff Hon]]; [tauto|].
    apply flag_set_after_scan in Hon as [Hnew|Hon]; [|congruence].
    rewrite map_app, elem_of_app in Hnew. destruct Hnew as [Hnew|Hnew]; [|tauto].
    apply elem_of_flags in Hnew as (c & -> & Hc).
    unfold after_scan; simpl. apply elem_of_app. right.
    apply elem_of_cooldowns. exact Hc.
  - destruct (resume_run s o (world sys))
      as (w1 & tr1 & fin & wt & tr' & _ & Hsame & Heq & _).
    rewrite Heq in H0. injection H0 as <- <- <-.
    destruct Hsame as (Hss & Htm & Hck & _).
    rewrite app_assoc, in_flight_app, in_flight_opt, in_flight_app in Hout.
    rewrite !elem_of_app in Hout.
    unfold after_scan, released; simpl. rewrite Hck.
    destruct Hcase as [Hin|[Hoff Hon]].
    + rewrite H, in_flight_app in Hin. simpl in Hin.
      rewrite elem_of_app, elem_of_cons in Hin.
      destruct Hin as [?|[->|?]]; try tauto.
      rewrite !elem_of_app. left. right. left.
    + apply flag_set_after_scan in Hon as [Hnew|Hon].
      * rewrite map_app, elem_of_app in Hnew. destruct Hnew as [Hnew|Hnew]; [|tauto].
        apply elem_of_flags in Hnew as (c & -> & Hc).
        apply elem_of_app. right. apply elem_of_cooldowns. exact Hc.
      * unfold released in Hon. rewrite flag_set_with_timers in Hon.
        unfold flag_set in Hon, Hoff. rewrite Hss in Hon. congruence.
  - destruct Hcase as [Hin|[Hoff Hon]]; [tauto|].
    apply flag_set_delete in Hon. congruence.
  - destruct Hcase as [Hin|[Hoff Hon]]; [tauto|].
    unfold flag_set in *; simpl in *. congruence.
  - destruct Hcase as [Hin|[Hoff Hon]]; [tauto|].
    unfold flag_set in *; simpl in *. congruence.
Qed.

Lemma resume_total s o w : exists r w' tr, resume s o w = (Normal r, w', tr).
Proof.
  destruct (resume_run s o w) as (w1 & tr1 & fin & wt & tr & _ & _ & Heq & _).
  eauto.
Qed.


(** C4. Every attempt, whatever the outcome [o] of its request, ends with
    the timer of its flag pending and due exactly 60000 ms after the time
    the attempt ended; the flag is still set then, and it stays set in
    every later state of the page whose clock is before that time.  The
    same holds for an attempt that ends without a request, inside the run
    that admitted it. *)
Theorem cooldown_after_attempt (sys : System) :
  reachable sys ->
  (forall pre s post o,
     running sys = pre ++ s :: post ->
     exists r w' tr,
       resume s o (world sys) = (Normal r, w', tr)
       /\ let sys' := mkSystem w' (pre ++ post ++ opt_list r) in
          let key := processingFlag (s_contactId s) in
          let due_at := clock (world sys) + 60000 in
          (due_at, key) ∈ timers w'
          /\ flag_set w' key = true
          /\ forall sys'', steps sys' sys'' -> clock (world sys'') < due_at ->
               flag_set (world sys'') key = true)
  /\ (forall sys' key,
        step sys sys' ->
        flag_set (world sys) key = false ->
        flag_set (world sys') key = true ->
        key ∉ in_flight sys' ->
        let due_at := clock (world sys) + 60000 in
        (due_at, key) ∈ timers (world sys')
        /\ forall sys'', steps sys' sys'' -> clock (world sys'') < due_at ->
             flag_set (world sys'') key = true).
Proof.
  intros Hreach. pose proof (guard_inv_reachable _ Hreach) as Hinv. split.
  - intros pre s post o Hrun.
    destruct (resume_total s o (world sys)) as (r & w' & tr & Heq).
    exists r, w', tr. split; [exact Heq|]. intros sys' key due_at.
    assert (Hstep : step sys sys') by (eapply step_response; eauto).
    assert (Hinv' : guard_inv sys') by (eapply guard_inv_step; eauto).
    assert (Hin : key ∈ in_flight sys).
    { unfold in_flight. rewrite Hrun, in_flight_app. simpl.
      rewrite elem_of_app, elem_of_cons. auto. }
    assert (Hout : key ∉ in_flight sys').
    { destruct (resume_run s o (world sys))
        as (w1 & tr1 & fin & wt & tr' & _ & _ & Heq' & _ & Hunset).
      rewrite Heq' in Heq. injection Heq as <- <- <-.
      destruct Hinv as [Hnd Hset].
      unfold sys', in_flight; simpl.
      rewrite app_assoc, in_flight_app, in_flight_opt, in_flight_app.
      rewrite !elem_of_app. intros [[Hp|Hp]|Hw].
      - unfold owners, in_flight in Hnd. rewrite Hrun, in_flight_app in Hnd.
        simpl in Hnd. rewrite <- app_assoc in Hnd.
        apply NoDup_app in Hnd as (_ & Hd & _). apply (Hd _ Hp).
        simpl. left.
      - unfold owners, in_flight in Hnd. rewrite Hrun, in_flight_app in Hnd.
        simpl in Hnd. rewrite <- app_assoc in Hnd.
        apply NoDup_app in Hnd as (_ & _ & Hd). simpl in Hd.
        apply NoDup_cons in Hd as [Hd _]. apply Hd.
        apply elem_of_app. left. exact Hp.
      - apply elem_of_flags in Hw as (c & E & Hc).
        assert (Hu : flag_set (world sys) (processingFlag c) = false).
        { apply Hunset. apply elem_of_app. right. exact Hc. }
        assert (Hs : flag_set (world sys) key = true).
        { apply Hset. unfold owners. apply elem_of_app. left. exact Hin. }
        rewrite E in Hs. congruence. }
    pose proof (attempt_over_timer sys sys' key Hstep (or_introl Hin) Hout) as Ht.
    split; [exact Ht|]. split.
    + apply Hinv'. unfold owners, cooling_down. apply elem_of_app. right.
      rewrite map_fmap. apply list_elem_of_fmap. exists (due_at, key). auto.
    + intros sys'' Hsteps Hlt.
      apply (cooldown_window sys' sys'' due_at key Hinv' Ht Hsteps Hlt).
  - intros sys' key Hstep Hoff Hon Hout due_at.
    assert (Hinv' : guard_inv sys') by (eapply guard_inv_step; eauto).
    pose proof (attempt_over_timer sys sys' key Hstep
                  (or_intror (conj Hoff Hon)) Hout) as Ht.
    split; [exact Ht|].
    intros sys'' Hsteps Hlt.
    apply (cooldown_window sys' sys'' due_at key Hinv' Ht Hsteps Hlt).
Qed.

Lemma tryAdmit_free contactId w :
  flag_set w (processingFlag contactId) = false ->
  tryAdmit contactId w =
  (Normal true,
   with_sessionStorage (insert (processingFlag contactId) (js "true")) w,
   [SsGet (processingFlag contactId); SsSet (processingFlag contactId)]).
Proof.
  unfold flag_set. intros H.
  unfold tryAdmit, bind, ss_getItem, ss_setItem, ret. rewrite H. reflexivity.
Qed.

Lemma tryAdmit_held contactId w :
  flag_set w (processingFlag contactId) = true ->
  tryAdmit contactId w = (Normal false, w, [SsGet (processingFlag contactId)]).
Proof.
  unfold flag_set. intros H.
  unfold tryAdmit, bind, ss_getItem, ss_setItem, ret. rewrite H. reflexivity.
Qed.

Lemma scan_held_skips allSettings allChats contact rest w :
  flag_set w (processingFlag (Contact.id contact)) = true ->
  (scan allSettings allChats (contact :: rest) w).1
  = (scan allSettings allChats rest w).1.
Proof.
  intros Hflag. destruct (due allSettings allChats (clock w) contact) eqn:Hdue.
  - rewrite (scan_held _ _ _ _ _ Hdue Hflag).
    destruct (scan _ _ rest w) as [[r w2] t2]. reflexivity.
  - rewrite (scan_skip _ _ _ _ _ Hdue). reflexivity.
Qed.

(** C5. Admission is exclusive. With the flag of a contact unset,
    [tryAdmit] sets it and admits; with the flag set it refuses and leaves
    the world as it is, and the loop goes on with the next contact as if
    this one were not in the list. In every state the page can reach, no
    contact is held twice, whether by a run waiting on its request or by a
    cooldown timer, and every contact so held has its flag set. *)
Theorem guard_exclusive (contactId : jsstring) (w : World) :
  (flag_set w (processingFlag contactId) = false ->
   exists w' tr,
     tryAdmit contactId w = (Normal true, w', tr)
     /\ flag_set w' (processingFlag contactId) = true
     /\ tryAdmit contactId w' = (Normal false, w', [SsGet (processingFlag contactId)]))
  /\ (flag_set w (processingFlag contactId) = true ->
      tryAdmit contactId w = (Normal false, w, [SsGet (processingFlag contactId)])
      /\ forall allSettings allChats contact rest,
           Contact.id contact = contactId ->
           (scan allSettings allChats (contact :: rest) w).1
           = (scan allSettings allChats rest w).1)
  /\ (forall sys,
        reachable sys ->
        NoDup (in_flight sys ++ cooling_down sys)
        /\ forall key, key ∈ in_flight sys ++ cooling_down sys ->
             flag_set (world sys) key = true).
Proof.
  split; [|split].
  - intros H. rewrite (tryAdmit_free _ _ H). eexists _, _.
    split; [reflexivity|].
    split; [apply flag_set_insert_eq|].
    apply tryAdmit_held. apply flag_set_insert_eq.
  - intros H. split; [apply tryAdmit_held; exact H|].
    intros allSettings allChats contact rest <-.
    apply scan_held_skips. exact H.
  - intros sys Hreach. exact (guard_inv_reachable sys Hreach).
Qed.

(** ** Runs of the handler do not overlap themselves *)

Lemma admit_all_lookup_ne ids ss key :
  key ∉ map processingFlag ids -> admit_all ids ss !! key = ss !! key.
Proof.
  revert ss. induction ids as [|c r IH]; intros ss Hnot; [reflexivity|].
  simpl in Hnot. apply not_elem_of_cons in Hnot as [Hne Hnot].
  unfold admit_all in *; simpl. rewrite IH by exact Hnot.
  apply lookup_insert_ne. congruence.
Qed.





(** ** Failures of the completion call *)











(** ** Instances *)

Lemma first_tick_run :
  exists tr,
    tick two_due = (Normal (Some first_run), world after_first_tick, tr).
Proof. eexists. vm_compute. reflexivity. Qed.

Lemma after_first_tick_reachable : reachable after_first_tick.
Proof.
  exists (mkSystem two_due []). split; [split; reflexivity|].
  destruct first_tick_run as (tr & Ht).
  eapply steps_step; [apply steps_refl|].
  exact (step_tick (mkSystem two_due []) _ _ _ Ht).
Qed.

Lemma increments_add_up_in_range_witness :
  Precise.unread
    (Precise.increments [(js "a", 2); (js "b", 1); (js "a", 3)] None) (js "a")
  = Precise.Own (Precise.Num (0 + total_for (js "a")
                                [(js "a", 2); (js "b", 1); (js "a", 3)])).
Proof.
  assert (H : Forall (fun call : jsstring * Z => 1 <= call.2)
                [(js "a", 2); (js "b", 1); (js "a", 3)])
    by (repeat constructor; simpl; lia).
  assert (Hr : Precise.unread None (js "a") = Precise.Own (Precise.Num 0))
    by (vm_compute; reflexivity).
  assert (Hs : 0 + total_for (js "a") [(js "a", 2); (js "b", 1); (js "a", 3)]
               <= 2 ^ 53) by (vm_compute; discriminate).
  exact (proj1 (increments_add_up_in_range (js "a") _ None 0 Hr (Z.le_refl 0) H Hs)).
Defined.

Lemma clear_removes_truthy_key_witness :
  Precise.getUnreadCounts
    (Precise.clearUnreadCount (js "a") (Some {[ js "a" := Precise.Num 2 ]}))
    !! js "a" = None.
Proof.
  assert (Hp : inherited (js "a") = false) by (vm_compute; reflexivity).
  apply (proj1 (clear_removes_truthy_key (js "a")
                  (Some {[ js "a" := Precise.Num 2 ]}) Hp) (Precise.Num 2)).
  - vm_compute. reflexivity.
  - reflexivity.
Defined.

Lemma tick_hidden_witness : tick two_due_hidden = (Normal None, two_due_hidden, []).
Proof. apply (tick_hidden two_due_hidden). reflexivity. Defined.



Lemma cooldown_after_attempt_witness :
  exists r w' tr,
    resume first_run Rejected (world after_first_tick) = (Normal r, w', tr)
    /\ (360001, processingFlag (js "a")) ∈ timers w'
    /\ flag_set w' (processingFlag (js "a")) = true.
Proof.
  destruct (proj1 (cooldown_after_attempt after_first_tick after_first_tick_reachable)
              [] first_run [] Rejected eq_refl)
    as (r & w' & tr & Heq & Hin & Hset & _).
  exists r, w', tr. split; [exact Heq|]. split; [exact Hin|exact Hset].
Defined.

Lemma guard_exclusive_witness :
  exists w' tr,
    tryAdmit (js "a") two_due = (Normal true, w', tr)
    /\ flag_set w' (processingFlag (js "a")) = true
    /\ tryAdmit (js "a") w' = (Normal false, w', [SsGet (processingFlag (js "a"))]).
Proof.
  apply (proj1 (guard_exclusive (js "a") two_due)). vm_compute. reflexivity.
Defined.


(** * Further properties *)

(** ** The ledger: how its operations compose *)

Lemma ledger_after_clear contactId w :
  ledger (exec (clearUnreadCount contactId) w)
  = if count_truthy (ledger w !! contactId) then delete contactId (ledger w)
    else ledger w.
Proof.
  unfold exec. destruct (count_truthy (ledger w !! contactId)) eqn:E.
  - rewrite (clearUnreadCount_truthy _ _ E). reflexivity.
  - rewrite (clearUnreadCount_falsy _ _ E). reflexivity.
Qed.

(** X1. A clear restarts the count: for an id that names no inherited
    property, after [clearUnreadCount] any sequence of increments with
    sizes of at least 1 that add up to at most 2^53 for the contact leaves
    it with exactly the sizes of its own calls added up, whatever was
    stored before. *)
Theorem clear_then_increments (contactId : jsstring) (calls : list (jsstring * Z))
    (stored : Precise.item) :
  inherited contactId = false ->
  Forall (fun call => 1 <= call.2) calls ->
  total_for contactId calls <= 2 ^ 53 ->
  Precise.unread
    (Precise.increments calls (Precise.clearUnreadCount contactId stored))
    contactId
  = Precise.Own (Precise.Num (total_for contactId calls)).
Proof.
  intros Hplain Hall Hsum.
  rewrite (unread_after_increments_in_range calls contactId _ 0);
    [reflexivity| |lia|exact Hall|lia].
  apply unread_after_clear_plain. exact Hplain.
Qed.

(** X2. [clearUnreadCount] is idempotent and touches one contact only: a
    second clear changes nothing, the counts of the other contacts are as
    before, and so are the transcripts, the guard flags and the timers. *)
Theorem clear_idempotent (contactId : jsstring) (w : World) :
  exec (clearUnreadCount contactId) (exec (clearUnreadCount contactId) w)
  = exec (clearUnreadCount contactId) w
  /\ (forall other, other <> contactId ->
        ledger (exec (clearUnreadCount contactId) w) !! other = ledger w !! other)
  /\ stored_chats (exec (clearUnreadCount contactId) w) = stored_chats w
  /\ same_page w (exec (clearUnreadCount contactId) w).
Proof.
  split; [|split; [|split]].
  - unfold exec at 2 3.
    destruct (count_truthy (ledger w !! contactId)) eqn:E.
    + rewrite (clearUnreadCount_truthy _ _ E); simpl.
      unfold exec. rewrite clearUnreadCount_falsy; [reflexivity|].
      unfold ledger; simpl. rewrite lookup_delete_eq. reflexivity.
    + rewrite (clearUnreadCount_falsy _ _ E); simpl.
      unfold exec. rewrite (clearUnreadCount_falsy _ _ E). reflexivity.
  - intros other Hne. rewrite ledger_after_clear.
    destruct (count_truthy _); [|reflexivity].
    apply lookup_delete_ne. congruence.
  - unfold exec. destruct (count_truthy (ledger w !! contactId)) eqn:E.
    + rewrite (clearUnreadCount_truthy _ _ E). reflexivity.
    + rewrite (clearUnreadCount_falsy _ _ E). reflexivity.
  - unfold exec. destruct (count_truthy (ledger w !! contactId)) eqn:E.
    + rewrite (clearUnreadCount_truthy _ _ E). repeat split.
    + rewrite (clearUnreadCount_falsy _ _ E). repeat split.
Qed.

Lemma set_unreadCounts_twice v1 v2 ls :
  set_unreadCounts v2 (set_unreadCounts v1 ls) = set_unreadCounts v2 ls.
Proof. reflexivity. Qed.

(** X3. An increment for one contact and a clear for another commute: in
    either order they leave the same world. *)
Theorem increment_clear_commute (a b : jsstring) (size : Z) (w : World) :
  a <> b ->
  exec (clearUnreadCount b) (exec (incrementUnreadCount a (Some size)) w)
  = exec (incrementUnreadCount a (Some size)) (exec (clearUnreadCount b) w).
Proof.
  intros Hne.
  assert (Hb : ledger (exec (incrementUnreadCount a (Some size)) w) !! b
               = ledger w !! b).
  { rewrite ledger_after_increment. apply lookup_insert_ne. exact Hne. }
  unfold exec at 1 4.
  destruct (count_truthy (ledger w !! b)) eqn:E.
  - rewrite clearUnreadCount_truthy by (rewrite Hb; exact E).
    rewrite (clearUnreadCount_truthy _ _ E); simpl.
    unfold exec. rewrite !incrementUnreadCount_run; simpl.
    unfold with_localStorage; simpl. f_equal.
    unfold set_unreadCounts; simpl. f_equal. f_equal.
    unfold unread, ledger; simpl.
    rewrite lookup_delete_ne by congruence.
    fold (ledger w). rewrite delete_insert_ne by congruence. reflexivity.
  - rewrite clearUnreadCount_falsy by (rewrite Hb; exact E).
    rewrite (clearUnreadCount_falsy _ _ E). reflexivity.
Qed.

(** ** A generation: what it appends and what it counts *)

Lemma appendReplies_ledger contactId c r w :
  ledger (exec (appendReplies contactId (c :: r)) w)
  = <[contactId := unread w contactId + Z.of_nat (length (c :: r))]> (ledger w).
Proof.
  unfold exec, appendReplies.
  change (0 <? length (c :: r))%nat with true. cbv iota.
  unfold bind at 1. unfold ls_getItem at 1. cbv beta iota.
  unfold bind at 1. rewrite newMessages_run. cbv beta iota.
  unfold bind at 1. unfold ls_setItem at 1. cbv beta iota.
  rewrite incrementUnreadCount_run. simpl.
  unfold ledger at 1; simpl. rewrite stamped_length. reflexivity.
Qed.



Lemma generation_outcome contactId o w :
  triggerGlobalAiReply_resume contactId o w = (Normal tt, w, [])
  /\ (forall rawReply, callGlobalAiApi_response o = Normal rawReply ->
        parseReplies rawReply = [])
  \/ exists rawReply c r,
       callGlobalAiApi_response o = Normal rawReply
       /\ parseReplies rawReply = c :: r
       /\ triggerGlobalAiReply_resume contactId o w
          = appendReplies contactId (c :: r) w.
Proof.
  destruct (callGlobalAiApi_response o) as [rawReply|e] eqn:E.
  - rewrite (triggerGlobalAiReply_resume_Normal _ _ _ _ E).
    destruct (parseReplies rawReply) as [|c r] eqn:Ep.
    + left. split; [reflexivity|]. intros raw' [= <-]. exact Ep.
    + right. exists rawReply, c, r. rewrite Ep. auto.
  - left. split; [apply (triggerGlobalAiReply_resume_Throw _ _ e); exact E|].
    intros rawReply H. discriminate.
Qed.


(** X5. The worker never stores a zero count: when every stored count is at
    least 1, it still is after a generation, whatever the outcome of the
    request. *)
Theorem generation_keeps_counts_positive (contactId : jsstring) (o : FetchOutcome)
    (w : World) :
  positive_ledger w ->
  positive_ledger (exec (triggerGlobalAiReply_resume contactId o) w).
Proof.
  intros Hpos.
  destruct (generation_outcome contactId o w)
    as [[H _]|(rawReply & c & r & _ & _ & H)]; unfold exec; rewrite H.
  - exact Hpos.
  - fold (exec (appendReplies contactId (c :: r)) w).
    intros k n. rewrite appendReplies_ledger.
    destruct (decide (contactId = k)) as [->|Hne].
    + rewrite lookup_insert_eq. intros [= <-].
      assert (0 <= unread w k).
      { unfold unread. destruct (ledger w !! k) as [m|] eqn:E.
        - rewrite count_or_zero_Some. specialize (Hpos k m E). lia.
        - unfold count_or_zero; simpl. lia. }
      simpl length. lia.
    + rewrite lookup_insert_ne by done. apply Hpos.
Qed.

Lemma all_blank_filter l :
  Forall (fun e => is_blank e = true) l ->
  forallb is_string l = true
  /\ List.filter (fun e => negb (is_blank e)) l = [].
Proof.
  induction 1 as [|e l He _ [IH1 IH2]]; simpl; [split; reflexivity|].
  rewrite He; simpl. split; [|exact IH2].
  destruct e; simpl in *; try discriminate. exact IH1.
Qed.

(** X6. Replies that are all blank write nothing: when the response text
    parses to an object whose [replies] is empty or holds only empty or
    white-space strings, the generation returns with the world as it was and
    without a single storage access. *)
Theorem blank_replies_write_nothing (contactId : jsstring) (o : FetchOutcome)
    (raw : jsstring) (v : json) (l : list json) (w : World) :
  callGlobalAiApi_response o = Normal (Some (JStr raw)) ->
  JSON.parse raw = Normal v ->
  replies_field v = Some l ->
  Forall (fun e => is_blank e = true) l ->
  triggerGlobalAiReply_resume contactId o w = (Normal tt, w, []).
Proof.
  intros Ho Hp Hf Hb. apply all_blank_filter in Hb as [Hs Hn].
  rewrite (triggerGlobalAiReply_resume_Normal _ _ _ _ Ho).
  rewrite parseReplies_cases. unfold lenient_replies.
  rewrite Hp, Hf, Hs, Hn. reflexivity.
Qed.


Lemma last_stamped t n c r :
  exists m, last (stamped t n (c :: r)) = Some m /\ Message.role m = js "assistant".
Proof.
  revert n c. induction r as [|c' r IH]; intros n c.
  - eexists. split; reflexivity.
  - destruct (IH (S n) c') as (m & Hm & Hr).
    exists m. split; [|exact Hr].
    change (stamped t n (c :: c' :: r))
      with (Message.mk (t, n) (js "assistant") c t :: stamped t (S n) (c' :: r)).
    rewrite last_cons, Hm. reflexivity.
Qed.

(** ** The request *)

Lemma callGlobalAiApi_request_unconfigured contactId w :
  configured w = false ->
  callGlobalAiApi_request contactId w
  = (Throw (Error (js "API not configured")), w, config_reads).
Proof.
  unfold configured. intros H.
  unfold callGlobalAiApi_request, bind, ls_getItem, throw.
  rewrite <- negb_andb, H. reflexivity.
Qed.

Lemma callGlobalAiApi_request_unknown contactId w :
  configured w = true ->
  stored_contact contactId w = None ->
  callGlobalAiApi_request contactId w
  = (Throw (Error (js "Contact with id " ++ contactId ++ js " not found")),
     w, lookup_reads).
Proof.
  unfold configured, stored_contact, loaded_contacts. intros H Hc.
  unfold callGlobalAiApi_request, bind, ls_getItem, throw.
  rewrite <- negb_andb, H. cbv beta iota delta [negb]. rewrite Hc. reflexivity.
Qed.

Lemma callGlobalAiApi_request_known contactId charData w :
  configured w = true ->
  stored_contact contactId w = Some charData ->
  callGlobalAiApi_request contactId w
  = (Normal (request_for contactId charData w), w,
     lookup_reads ++ [LsGet (js "user_persona"); LsGet (js "temperature")]).
Proof.
  unfold configured, stored_contact, loaded_contacts. intros H Hc.
  unfold callGlobalAiApi_request, bind, ls_getItem, throw, ret, Date_now.
  rewrite <- negb_andb, H. cbv beta iota delta [negb]. rewrite Hc. reflexivity.
Qed.

Lemma callGlobalAiApi_request_inv contactId w req w' tr :
  callGlobalAiApi_request contactId w = (Normal req, w', tr) ->
  exists charData,
    configured w = true /\ stored_contact contactId w = Some charData
    /\ req = request_for contactId charData w /\ w' = w.
Proof.
  intros H. destruct (configured w) eqn:Hc.
  - destruct (stored_contact contactId w) as [charData|] eqn:Hs.
    + rewrite (callGlobalAiApi_request_known _ _ _ Hc Hs) in H.
      injection H as <- <- _. exists charData. auto.
    + rewrite (callGlobalAiApi_request_unknown _ _ Hc Hs) in H. discriminate.
  - rewrite (callGlobalAiApi_request_unconfigured _ _ Hc) in H. discriminate.
Qed.

Lemma precise_request_unconfigured contactId w :
  configured w = false ->
  Precise.callGlobalAiApi_request contactId w
  = (Throw (Error (js "API not configured")), w, config_reads).
Proof.
  unfold configured. intros H.
  unfold Precise.callGlobalAiApi_request, bind, ls_getItem, throw.
  rewrite <- negb_andb, H. reflexivity.
Qed.

Lemma precise_request_unknown contactId w :
  configured w = true ->
  stored_contact contactId w = None ->
  Precise.callGlobalAiApi_request contactId w
  = (Throw (Error (js "Contact with id " ++ contactId ++ js " not found")),
     w, lookup_reads).
Proof.
  unfold configured, stored_contact, loaded_contacts. intros H Hc.
  unfold Precise.callGlobalAiApi_request, bind, ls_getItem, throw.
  rewrite <- negb_andb, H. cbv beta iota delta [negb]. rewrite Hc. reflexivity.
Qed.

Lemma precise_request_no_slice contactId charData w :
  configured w = true ->
  stored_contact contactId w = Some charData ->
  stored_chats w !! contactId = None ->
  inherited contactId = true ->
  Precise.callGlobalAiApi_request contactId w
  = (Throw TypeError, w, lookup_reads ++ [LsGet (js "user_persona")]).
Proof.
  unfold configured, stored_contact, loaded_contacts, stored_chats.
  intros H Hc Hh Hi.
  unfold Precise.callGlobalAiApi_request, bind, ls_getItem, throw, ret, Date_now,
    lift, Precise.history_window.
  rewrite <- negb_andb, H. cbv beta iota delta [negb]. rewrite Hc, Hh, Hi.
  reflexivity.
Qed.

Lemma precise_request_plain contactId w :
  plain_in (stored_chats w) contactId ->
  Precise.callGlobalAiApi_request contactId w = callGlobalAiApi_request contactId w.
Proof.
  intros Hplain.
  unfold Precise.callGlobalAiApi_request, callGlobalAiApi_request, bind,
    ls_getItem, throw, ret, Date_now, lift, Precise.history_window.
  destruct (negb _ || negb _); [reflexivity|]. cbv beta iota.
  destruct (find _ _) as [charData|]; [|reflexivity]. cbv beta iota.
  fold (stored_chats w).
  destruct (stored_chats w !! contactId) as [h|] eqn:E; [reflexivity|].
  destruct Hplain as [->|[x Hx]]; [reflexivity|congruence].
Qed.

(** X9. Whether a request goes out is decided before the network is
    touched, and nothing is written on the way. Without an endpoint or a
    key the call throws [API not configured] after reading three settings.
    With both, but no contact of that id in the stored list, it throws
    [Contact with id ... not found].  With both and the contact stored, but
    an id that names an inherited property and has no transcript of its
    own, [history.slice] throws a [TypeError].  In these three cases the
    generation returns without a request.  Otherwise the request is built
    and the generation waits on it. *)
Theorem request_goes_out_or_throws (contactId : jsstring) (w : World) :
  (configured w = false ->
   Precise.callGlobalAiApi_request contactId w
   = (Throw (Error (js "API not configured")), w, config_reads)
   /\ exists tr, Precise.triggerGlobalAiReply_request contactId w
                 = (Normal None, w, tr))
  /\ (configured w = true -> stored_contact contactId w = None ->
      Precise.callGlobalAiApi_request contactId w
      = (Throw (Error (js "Contact with id " ++ contactId ++ js " not found")),
         w, lookup_reads)
      /\ exists tr, Precise.triggerGlobalAiReply_request contactId w
                    = (Normal None, w, tr))
  /\ (forall charData,
        configured w = true -> stored_contact contactId w = Some charData ->
        stored_chats w !! contactId = None -> inherited contactId = true ->
        Precise.callGlobalAiApi_request contactId w
        = (Throw TypeError, w, lookup_reads ++ [LsGet (js "user_persona")])
        /\ exists tr, Precise.triggerGlobalAiReply_request contactId w
                      = (Normal None, w, tr))
  /\ (forall charData,
        configured w = true -> stored_contact contactId w = Some charData ->
        plain_in (stored_chats w) contactId ->
        exists tr,
          Precise.callGlobalAiApi_request contactId w
          = (Normal (request_for contactId charData w), w, tr)
          /\ Precise.triggerGlobalAiReply_request contactId w
             = (Normal (Some (request_for contactId charData w)), w, tr ++ [])).
Proof.
  split; [|split; [|split]].
  - intros Hc. split; [apply precise_request_unconfigured; exact Hc|].
    unfold Precise.triggerGlobalAiReply_request, try_catch, bind.
    rewrite (precise_request_unconfigured _ _ Hc). eexists. reflexivity.
  - intros Hc Hs. split; [apply precise_request_unknown; assumption|].
    unfold Precise.triggerGlobalAiReply_request, try_catch, bind.
    rewrite (precise_request_unknown _ _ Hc Hs). eexists. reflexivity.
  - intros charData Hc Hs Hh Hi.
    split; [eapply precise_request_no_slice; eassumption|].
    unfold Precise.triggerGlobalAiReply_request, try_catch, bind.
    rewrite (precise_request_no_slice _ _ _ Hc Hs Hh Hi). eexists. reflexivity.
  - intros charData Hc Hs Hp. eexists. split.
    + rewrite (precise_request_plain _ _ Hp).
      apply callGlobalAiApi_request_known; assumption.
    + unfold Precise.triggerGlobalAiReply_request, try_catch, bind.
      rewrite (precise_request_plain _ _ Hp).
      rewrite (callGlobalAiApi_request_known _ _ _ Hc Hs). reflexivity.
Qed.

Lemma strip_prefix_app p r : JSON.strip_prefix p (p ++ r) = Some r.
Proof.
  induction p as [|a p IH]; simpl; [reflexivity|].
  rewrite N.eqb_refl. exact IH.
Qed.

Lemma includes_suffix needle p : includes needle (p ++ needle) = true.
Proof.
  induction p as [|a p IH].
  - simpl app. destruct needle as [|b n]; [reflexivity|].
    unfold includes; fold includes.
    rewrite <- (app_nil_r (b :: n)) at 2. rewrite strip_prefix_app. reflexivity.
  - change ((a :: p) ++ needle) with (a :: (p ++ needle)).
    destruct needle as [|b n]; [reflexivity|].
    unfold includes; fold includes.
    destruct (JSON.strip_prefix (b :: n) (a :: p ++ b :: n)); [reflexivity|].
    exact IH.
Qed.

(** X10. Every request goes to a chat-completions address: the address of
    a request that is sent contains [/chat/completions]; it is the stored
    endpoint itself when that already contains it, and otherwise the
    endpoint without one trailing slash, followed by [/chat/completions].
    The endpoint and the key are not empty, and the authorization is
    [Bearer] followed by the key. *)
Theorem request_address (contactId : jsstring) (w w' : World) (req : Request.t)
    (tr : list event) :
  callGlobalAiApi_request contactId w = (Normal req, w', tr) ->
  exists endpoint key,
    apiUrl (localStorage w) = Some endpoint /\ endpoint <> []
    /\ apiKey (localStorage w) = Some key /\ key <> []
    /\ includes (js "/chat/completions") (Request.url req) = true
    /\ (includes (js "/chat/completions") endpoint = true ->
        Request.url req = endpoint)
    /\ (includes (js "/chat/completions") endpoint = false ->
        Request.url req = strip_trailing_slash endpoint ++ js "/chat/completions")
    /\ Request.authorization req = js "Bearer " ++ key.
Proof.
  intros H. apply callGlobalAiApi_request_inv in H
    as (charData & Hc & _ & -> & _).
  unfold configured in Hc. apply andb_prop in Hc as [Hu Hk].
  destruct (apiUrl (localStorage w)) as [[|u0 u]|] eqn:Eu; try discriminate.
  destruct (apiKey (localStorage w)) as [[|k0 k]|] eqn:Ek; try discriminate.
  exists (u0 :: u), (k0 :: k).
  split; [reflexivity|]. split; [discriminate|].
  split; [reflexivity|]. split; [discriminate|].
  unfold request_for; simpl Request.url; simpl Request.authorization.
  rewrite Eu, Ek.
  change (default [] (Some (u0 :: u))) with (u0 :: u).
  change (default [] (Some (k0 :: k))) with (k0 :: k).
  destruct (includes (js "/chat/completions") (u0 :: u)) eqn:Ei;
    cbv beta iota delta [negb].
  - repeat split; auto; intros; congruence.
  - repeat split; auto; [apply includes_suffix|intros; congruence].
Qed.

Lemma slice_last_suffix {A} n (l : list A) :
  exists older,
    l = older ++ slice_last n l
    /\ length (slice_last n l) = Nat.min n (length l)
    /\ ((length l <= n)%nat -> older = []).
Proof.
  unfold slice_last. exists (take (length l - n) l).
  split; [symmetry; apply take_drop|].
  split; [rewrite length_drop; lia|].
  intros Hle. replace (length l - n)%nat with 0%nat by lia. reflexivity.
Qed.

(** X11. The request carries the tail of the conversation: its history is
    the role and content of the last 15 messages of the stored transcript,
    in order, and of all of them when there are at most 15. *)
Theorem request_history_window (contactId : jsstring) (w w' : World)
    (req : Request.t) (tr : list event) :
  callGlobalAiApi_request contactId w = (Normal req, w', tr) ->
  let sent := fun m => (Message.role m, Message.content m) in
  let history := transcript (stored_chats w) contactId in
  (length (Request.history req) <= 15)%nat
  /\ length (Request.history req) = Nat.min 15 (length history)
  /\ exists older,
       map sent history = map sent older ++ Request.history req
       /\ ((length history <= 15)%nat -> older = []).
Proof.
  intros H sent history. apply callGlobalAiApi_request_inv in H
    as (charData & _ & _ & -> & _).
  unfold request_for; simpl Request.history. fold history. fold sent.
  destruct (slice_last_suffix 15 history) as (older & Hsplit & Hlen & Hall).
  rewrite length_map.
  split; [lia|]. split; [exact Hlen|].
  exists older. split; [|exact Hall].
  rewrite <- map_app, <- Hsplit. reflexivity.
Qed.

(** ** The response *)

(** X12. The reason of a refusal: on a status that is not a success the call
    throws an error whose message is [error.message] of the body when that
    is a string that is not empty, and the status text when the body has no
    [error] or its [error] has no [message]; when the body is not JSON, the
    error of reading it is thrown instead. *)
Theorem refusal_reason (statusText : jsstring) (ms : list (jsstring * json)) :
  (JS.lookup_member (js "error") ms = None ->
   callGlobalAiApi_response (Response false statusText (Normal (JObj ms)))
   = Throw (Error statusText))
  /\ (forall es m,
        JS.lookup_member (js "error") ms = Some (JObj es) ->
        JS.lookup_member (js "message") es = Some (JStr m) ->
        m <> [] ->
        callGlobalAiApi_response (Response false statusText (Normal (JObj ms)))
        = Throw (Error m))
  /\ (forall es,
        JS.lookup_member (js "error") ms = Some (JObj es) ->
        JS.lookup_member (js "message") es = None ->
        callGlobalAiApi_response (Response false statusText (Normal (JObj ms)))
        = Throw (Error statusText))
  /\ (forall e,
        callGlobalAiApi_response (Response false statusText (Throw e)) = Throw e).
Proof.
  unfold callGlobalAiApi_response. cbv beta iota delta [negb cbind].
  split; [|split; [|split]].
  - intros H. simpl JS.getProp. cbv beta iota. rewrite H. reflexivity.
  - intros es m He Hm Hne. simpl JS.getProp. cbv beta iota. rewrite He.
    simpl JS.getPropOpt. cbv beta iota. rewrite Hm.
    unfold JS.or_else, JS.truthy.
    apply jsstring_eqb_neq in Hne. rewrite Hne. reflexivity.
  - intros es He Hm. simpl JS.getProp. cbv beta iota. rewrite He.
    simpl JS.getPropOpt. cbv beta iota. rewrite Hm. reflexivity.
  - reflexivity.
Qed.

(** X13. A well-formed success is read exactly: for a success body of the
    shape [{choices: [{message: {content: <string>}}]}] the call returns
    that content string, whatever else the body holds. *)
Theorem expected_body_gives_content (statusText : jsstring) (data : json) :
  expected_body data = true ->
  exists ms ms1 rest ms2 content,
    data = JObj ms
    /\ JS.lookup_member (js "choices") ms = Some (JArr (JObj ms1 :: rest))
    /\ JS.lookup_member (js "message") ms1 = Some (JObj ms2)
    /\ JS.lookup_member (js "content") ms2 = Some (JStr content)
    /\ callGlobalAiApi_response (Response true statusText (Normal data))
       = Normal (Some (JStr content)).
Proof.
  unfold expected_body. destruct data as [| | | | |ms]; try discriminate.
  destruct (JS.lookup_member (js "choices") ms)
    as [[| | | |[|[| | | | |ms1] rest]|]|] eqn:E1; try discriminate.
  destruct (JS.lookup_member (js "message") ms1)
    as [[| | | | |ms2]|] eqn:E2; try discriminate.
  destruct (JS.lookup_member (js "content") ms2)
    as [[| | |content| |]|] eqn:E3; try discriminate.
  intros _. exists ms, ms1, rest, ms2, content. repeat split; auto.
  unfold callGlobalAiApi_response. cbv beta iota delta [negb cbind].
  simpl JS.getProp at 1. cbv beta iota. rewrite E1.
  change (JS.getProp (Some (JArr (JObj ms1 :: rest))) (js "0"))
    with (@Normal jsval (Some (JObj ms1))). cbv beta iota.
  simpl JS.getProp at 1. cbv beta iota. rewrite E2.
  simpl JS.getProp. rewrite E3. reflexivity.
Qed.

(** ** The handler: what a run admits *)

Lemma tick_visible w :
  hidden w = false ->
  tick w =
  let '(r, w', t) :=
    scan (loaded_settings w) (stored_chats w) (loaded_contacts w) w in
  (r, w', load_reads ++ t).
Proof.
  intros H. unfold tick, bind, document_hidden, ls_getItem. rewrite H.
  fold (loaded_settings w). fold (stored_chats w). fold (loaded_contacts w).
  destruct (scan _ _ _ w) as [[r w'] t]. reflexivity.
Qed.

Lemma tick_hidden_run w : hidden w = true -> tick w = (Normal None, w, []).
Proof.
  intros H. unfold tick, bind, document_hidden. rewrite H. reflexivity.
Qed.

Lemma after_scan_keeps_flag w finished waiting key :
  (forall c, c ∈ finished ++ waiting_on waiting ->
     flag_set w (processingFlag c) = false) ->
  flag_set w key = true ->
  sessionStorage (after_scan w finished waiting) !! key = sessionStorage w !! key.
Proof.
  intros Hunset Hset. unfold after_scan; simpl.
  apply admit_all_lookup_ne. intros Hin.
  apply elem_of_flags in Hin as (c & -> & Hc).
  rewrite (Hunset c Hc) in Hset. discriminate.
Qed.

Lemma cooldowns_Forall w finished waiting :
  (forall c, c ∈ finished ++ waiting_on waiting ->
     flag_set w (processingFlag c) = false) ->
  Forall (fun t => t.1 = clock w + 60000
                   /\ flag_set w t.2 = false
                   /\ flag_set (after_scan w finished waiting) t.2 = true)
    (cooldowns (clock w) finished).
Proof.
  intros Hunset. apply Forall_forall. intros [d key] Hin.
  unfold cooldowns in Hin. rewrite map_fmap in Hin.
  apply list_elem_of_fmap in Hin as (c & [= -> ->] & Hc). simpl.
  split; [reflexivity|]. split.
  - apply Hunset. apply elem_of_app. left. exact Hc.
  - apply flag_set_after_scan. left. rewrite map_app, elem_of_app. left.
    apply elem_of_flags. exists c. auto.
Qed.

(** X14. The handler only ever adds to the guard. A tick writes nothing to
    [localStorage] and leaves the clock and the visibility alone; a tick and
    a resumed run keep every flag that is set exactly as it is, and keep
    every pending timer; each timer a tick adds is due 60000 ms from now
    and is for a flag that was not set before and is set after. *)
Theorem handler_only_adds_to_guard (w : World) :
  (forall r w' tr,
     tick w = (Normal r, w', tr) ->
     localStorage w' = localStorage w /\ clock w' = clock w
     /\ hidden w' = hidden w
     /\ (forall key, flag_set w key = true ->
           sessionStorage w' !! key = sessionStorage w !! key)
     /\ exists added,
          timers w' = timers w ++ added
          /\ Forall (fun t => t.1 = clock w + 60000
                              /\ flag_set w t.2 = false
                              /\ flag_set w' t.2 = true) added)
  /\ (forall s o r w' tr,
        resume s o w = (Normal r, w', tr) ->
        clock w' = clock w
        /\ (forall key, flag_set w key = true ->
              sessionStorage w' !! key = sessionStorage w !! key)
        /\ exists added, timers w' = timers w ++ added).
Proof.
  split.
  - intros r w' tr Ht.
    destruct (tick_run w) as (fin & wt & tr' & Heq & _ & Hunset).
    rewrite Heq in Ht. injection Ht as <- <- _.
    repeat split.
    + intros key Hset. apply after_scan_keeps_flag; assumption.
    + exists (cooldowns (clock w) fin). split; [reflexivity|].
      apply cooldowns_Forall. exact Hunset.
  - intros s o r w' tr Hr.
    destruct (resume_run s o w)
      as (w1 & tr1 & fin & wt & tr' & _ & Hsame & Heq & _ & Hunset).
    rewrite Heq in Hr. injection Hr as <- <- _.
    destruct Hsame as (Hss & Htm & Hck & _).
    split; [simpl; exact Hck|]. split.
    + intros key Hset.
      rewrite after_scan_keeps_flag.
      * simpl. rewrite Hss. reflexivity.
      * intros c Hc. unfold released. rewrite flag_set_with_timers.
        unfold flag_set. rewrite Hss. apply Hunset. exact Hc.
      * unfold released. rewrite flag_set_with_timers.
        unfold flag_set. rewrite Hss. exact Hset.
    + eexists. unfold after_scan, released; simpl. rewrite Htm.
      rewrite <- app_assoc. reflexivity.
Qed.

(** X15. The handler sets a guard flag only for a contact that is due by
    the data the run loaded.  Every flag that is unset before the callback
    runs to its first await and set after it is the flag of a contact of
    the stored list that is due by the stored settings and transcripts, and
    the page was visible.  Every flag that is unset before a run is resumed
    and set after it is the flag of a contact the run had left, due by the
    copies the run carries, at the clock of the resumption. *)
Theorem handler_admits_only_due (w : World) (key : jsstring) :
  (forall r w' tr,
     tick w = (Normal r, w', tr) ->
     flag_set w key = false ->
     flag_set w' key = true ->
     hidden w = false
     /\ exists contact,
          contact ∈ loaded_contacts w
          /\ key = processingFlag (Contact.id contact)
          /\ due (loaded_settings w) (stored_chats w) (clock w) contact = true)
  /\ (forall s o r w' tr,
        resume s o w = (Normal r, w', tr) ->
        flag_set w key = false ->
        flag_set w' key = true ->
        exists contact,
          contact ∈ s_rest s
          /\ key = processingFlag (Contact.id contact)
          /\ due (s_allSettings s) (s_allChats s) (clock w) contact = true).
Proof.
  split.
  - intros r w' tr Ht Hoff Hon. destruct (hidden w) eqn:Hh.
    { rewrite (tick_hidden_run _ Hh) in Ht. injection Ht as _ <- _. congruence. }
    split; [reflexivity|].
    rewrite (tick_visible _ Hh) in Ht.
    destruct (scan_run (loaded_settings w) (stored_chats w) (loaded_contacts w) w)
      as (fin & wt & tr' & Heq & _ & _ & Hdue & _).
    rewrite Heq in Ht. injection Ht as _ <- _.
    apply flag_set_after_scan in Hon as [Hin|Hon]; [|congruence].
    apply elem_of_flags in Hin as (c & -> & Hc).
    destruct (Hdue c Hc) as (contact & Hin & <- & Hd).
    exists contact. auto.
  - intros s o r w' tr Hr Hoff Hon.
    destruct (triggerGlobalAiReply_resume_total (s_contactId s) o w)
      as (w1 & tr1 & H1 & Hss & _ & Hck & _).
    rewrite (resume_unfold _ _ _ _ _ H1) in Hr.
    destruct (scan_run (s_allSettings s) (s_allChats s) (s_rest s)
                (released (s_contactId s) w1))
      as (fin & wt & tr' & Heq & _ & _ & Hdue & _).
    rewrite Heq in Hr. injection Hr as _ <- _.
    apply flag_set_after_scan in Hon as [Hin|Hon].
    + apply elem_of_flags in Hin as (c & -> & Hc).
      destruct (Hdue c Hc) as (contact & Hin & <- & Hd).
      exists contact. split; [exact Hin|]. split; [reflexivity|].
      rewrite <- Hck. exact Hd.
    + unfold released in Hon. rewrite flag_set_with_timers in Hon.
      unfold flag_set in Hon, Hoff. rewrite Hss in Hon. congruence.
Qed.





Lemma scan_keeps_flag allSettings allChats contacts w r w' tr key :
  scan allSettings allChats contacts w = (r, w', tr) ->
  flag_set w key = true -> flag_set w' key = true.
Proof.
  intros H Hset.
  destruct (scan_run allSettings allChats contacts w)
    as (fin & wt & tr' & Heq & _).
  rewrite Heq in H. injection H as _ <- _.
  apply flag_set_after_scan. right. exact Hset.
Qed.

Lemma scan_to_the_end allSettings allChats contacts : forall w w' tr,
  scan allSettings allChats contacts w = (Normal None, w', tr) ->
  forall contact, contact ∈ contacts ->
    due allSettings allChats (clock w) contact = true ->
    flag_set w' (processingFlag (Contact.id contact)) = true.
Proof.
  induction contacts as [|c rest IH]; intros w w' tr Hs contact Hin Hd.
  { inversion Hin. }
  destruct (due allSettings allChats (clock w) c) eqn:Hdue.
  2: { rewrite (scan_skip _ _ _ _ _ Hdue) in Hs.
       apply elem_of_cons in Hin as [->|Hin]; [congruence|].
       eapply IH; eauto. }
  destruct (flag_set w (processingFlag (Contact.id c))) eqn:Hflag.
  { rewrite (scan_held _ _ _ _ _ Hdue Hflag) in Hs.
    destruct (scan allSettings allChats rest w) as [[r2 w2] t2] eqn:E.
    injection Hs as -> -> _.
    apply elem_of_cons in Hin as [->|Hin].
    - eapply scan_keeps_flag; eauto.
    - eapply IH; eauto. }
  set (w1 := with_sessionStorage
               (insert (processingFlag (Contact.id c)) (js "true")) w).
  destruct (triggerGlobalAiReply_request_frame (Contact.id c) w1)
    as ([req|] & trq & Hreq).
  { rewrite (scan_waits _ _ _ _ _ _ _ Hdue Hflag Hreq) in Hs. discriminate. }
  rewrite (scan_fails _ _ _ _ _ _ Hdue Hflag Hreq) in Hs. fold w1 in Hs.
  set (w2 := with_timers
    (fun l => l ++ [(clock w + 60000, processingFlag (Contact.id c))]) w1) in Hs.
  destruct (scan allSettings allChats rest w2) as [[r3 w3] t3] eqn:E.
  injection Hs as -> -> _.
  apply elem_of_cons in Hin as [->|Hin].
  - eapply scan_keeps_flag; [exact E|]. unfold w2.
    rewrite flag_set_with_timers. apply flag_set_insert_eq.
  - eapply IH; [exact E|exact Hin|exact Hd].
Qed.

(** X17. A run that reaches the end of the list has been through every due
    contact: when a tick returns without waiting on a request, every
    contact of the stored list that is due holds its flag; and when a
    resumed run returns without waiting, so does every contact it had left
    that is due by the settings and transcripts the run loaded. *)
Theorem finished_run_covers_every_due (w : World) :
  (forall w' tr contact,
     hidden w = false ->
     tick w = (Normal None, w', tr) ->
     contact ∈ loaded_contacts w ->
     due (loaded_settings w) (stored_chats w) (clock w) contact = true ->
     flag_set w' (processingFlag (Contact.id contact)) = true)
  /\ (forall s o w' tr contact,
        resume s o w = (Normal None, w', tr) ->
        contact ∈ s_rest s ->
        due (s_allSettings s) (s_allChats s) (clock w) contact = true ->
        flag_set w' (processingFlag (Contact.id contact)) = true).
Proof.
  split.
  - intros w' tr contact Hh Ht Hin Hd.
    rewrite (tick_visible _ Hh) in Ht.
    destruct (scan _ _ _ w) as [[r2 w2] t2] eqn:E.
    injection Ht as -> -> _.
    eapply scan_to_the_end; eauto.
  - intros s o w' tr contact Hr Hin Hd.
    destruct (triggerGlobalAiReply_resume_total (s_contactId s) o w)
      as (w1 & tr1 & H1 & Hsame).
    rewrite (resume_unfold _ _ _ _ _ H1) in Hr.
    destruct (scan _ _ _ _) as [[r2 w2] t2] eqn:E.
    injection Hr as -> -> _.
    eapply scan_to_the_end; [exact E|exact Hin|].
    unfold released; simpl. destruct Hsame as (_ & _ & Hck & _).
    rewrite Hck. exact Hd.
Qed.

(** ** A run and the stores it loaded *)







(** ** The guard over time, continued *)

(** X19. When a cooldown timer fires it releases its contact and no other:
    in every state the page can reach, after the timer of a flag has fired
    the flag is unset and held by nothing, every flag that is still held is
    still set, and the contact can be admitted again. *)
Theorem timer_releases_its_contact (sys : System) (pre post : list (Z * jsstring))
    (d : Z) (key : jsstring) :
  reachable sys ->
  timers (world sys) = pre ++ (d, key) :: post ->
  let sys' :=
    mkSystem
      (with_timers (fun _ => pre ++ post)
         (with_sessionStorage (delete key) (world sys)))
      (running sys) in
  flag_set (world sys') key = false
  /\ (key ∉ in_flight sys' ++ cooling_down sys')
  /\ (forall held, held ∈ in_flight sys' ++ cooling_down sys' ->
        flag_set (world sys') held = true)
  /\ (forall contactId, key = processingFlag contactId ->
        exists w2 tr, tryAdmit contactId (world sys') = (Normal true, w2, tr)).
Proof.
  intros Hreach Ht sys'.
  pose proof (guard_inv_reachable _ Hreach) as Hinv.
  pose proof (guard_inv_timeout sys pre d key post Hinv Ht) as [_ Hset'].
  fold sys' in Hset'.
  assert (Hoff : flag_set (world sys') key = false).
  { unfold sys', flag_set; simpl. rewrite lookup_delete_eq. reflexivity. }
  split; [exact Hoff|]. split; [|split].
  - intros Hin. specialize (Hset' key Hin). congruence.
  - exact Hset'.
  - intros contactId ->. rewrite (tryAdmit_free _ _ Hoff). eauto.
Qed.

(** The flag [key] is set and held by nothing. *)
Lemma orphan_step sys sys' key :
  step sys sys' ->
  flag_set (world sys) key = true -> key ∉ owners sys ->
  flag_set (world sys') key = true /\ (key ∉ owners sys').
Proof.
  intros Hstep Hset Hfree. destruct Hstep; unfold owners, in_flight, cooling_down in *;
    simpl in *.
  - destruct (tick_run (world sys)) as (fin & wt & tr' & Heq & _ & Hunset).
    rewrite Heq in H. injection H as <- <- _. split.
    + apply flag_set_after_scan. right. exact Hset.
    + rewrite timers_after_scan, in_flight_app, in_flight_opt.
      rewrite !elem_of_app in *. intros [[?|Hw]|[?|Hf]]; try tauto.
      * apply elem_of_flags in Hw as (c & -> & Hc).
        rewrite Hunset in Hset; [discriminate|]. apply elem_of_app. auto.
      * apply elem_of_flags in Hf as (c & -> & Hc).
        rewrite Hunset in Hset; [discriminate|]. apply elem_of_app. auto.
  - destruct (resume_run s o (world sys))
      as (w1 & tr1 & fin & wt & tr' & _ & Hsame & Heq & _ & Hunset).
    rewrite Heq in H0. injection H0 as <- <- _.
    destruct Hsame as (Hss & Htm & _). split.
    + apply flag_set_after_scan. right. unfold released.
      rewrite flag_set_with_timers. unfold flag_set in *. rewrite Hss. exact Hset.
    + rewrite timers_after_scan. unfold released; simpl.
      rewrite !map_app, Htm, in_flight_opt. simpl.
      rewrite H, map_app in Hfree. simpl in Hfree.
      rewrite !elem_of_app in *. rewrite elem_of_cons in Hfree.
      intros [[?|[?|Hw]]|[[?|Hk]|Hf]]; try tauto.
      * apply elem_of_flags in Hw as (c & -> & Hc).
        rewrite Hunset in Hset; [discriminate|]. apply elem_of_app. auto.
      * apply list_elem_of_singleton in Hk. tauto.
      * apply elem_of_flags in Hf as (c & -> & Hc).
        rewrite Hunset in Hset; [discriminate|]. apply elem_of_app. auto.
  - rewrite H, map_app in Hfree. simpl in Hfree.
    rewrite !elem_of_app, elem_of_cons in Hfree.
    split.
    + unfold flag_set in *; simpl. rewrite lookup_delete_ne; [exact Hset|].
      intros ->. tauto.
    + rewrite map_app, !elem_of_app. tauto.
  - auto.
  - auto.
Qed.

(** X20. A flag left behind is never released: if a guard flag is set when
    the page loads the worker, with no run and no timer to own it, then in
    every later state it is still set, no attempt is in flight for it and
    no timer will remove it. *)
Theorem orphan_flag_is_never_released (sys0 sys : System) (key : jsstring) :
  initial sys0 ->
  flag_set (world sys0) key = true ->
  steps sys0 sys ->
  flag_set (world sys) key = true
  /\ (key ∉ in_flight sys) /\ (key ∉ cooling_down sys).
Proof.
  intros [Hr Ht] Hset Hsteps.
  assert (H : flag_set (world sys) key = true /\ (key ∉ owners sys)).
  { induction Hsteps as [|sys1 sys2 sys3 Hs IH Hstep].
    - split; [exact Hset|]. unfold owners, in_flight, cooling_down.
      rewrite Hr, Ht. simpl. intros Hin. inversion Hin.
    - destruct (IH Hr Ht Hset) as [H1 H2].
      exact (orphan_step _ _ _ Hstep H1 H2). }
  destruct H as [H1 H2]. split; [exact H1|].
  unfold owners in H2. rewrite elem_of_app in H2. tauto.
Qed.

Lemma timers_bounded_step sys sys' :
  step sys sys' ->
  (forall d key, (d, key) ∈ timers (world sys) -> d <= clock (world sys) + 60000) ->
  forall d key, (d, key) ∈ timers (world sys') -> d <= clock (world sys') + 60000.
Proof.
  intros Hstep Hb d key Hin. destruct Hstep; simpl in *.
  - destruct (tick_run (world sys)) as (fin & wt & tr' & Heq & _).
    rewrite Heq in H. injection H as <- <- _. simpl in *.
    apply elem_of_app in Hin as [Hin|Hin]; [eauto|].
    unfold cooldowns in Hin. rewrite map_fmap in Hin.
    apply list_elem_of_fmap in Hin as (c & [= -> ->] & _). lia.
  - destruct (resume_run s o (world sys))
      as (w1 & tr1 & fin & wt & tr' & _ & Hsame & Heq & _).
    rewrite Heq in H0. injection H0 as <- <- _. simpl in *.
    destruct Hsame as (_ & Htm & Hck & _). rewrite Htm, Hck in Hin. rewrite Hck.
    rewrite !elem_of_app in Hin. destruct Hin as [[Hin|Hin]|Hin]; [eauto| |].
    + apply list_elem_of_singleton in Hin. injection Hin as -> ->. lia.
    + unfold cooldowns in Hin. rewrite map_fmap in Hin.
      apply list_elem_of_fmap in Hin as (c & [= -> ->] & _). lia.
  - apply (Hb d key). rewrite H. rewrite elem_of_app in *.
    rewrite elem_of_cons. tauto.
  - specialize (Hb d key Hin). lia.
  - eauto.
Qed.

(** X21. A cooldown never lasts longer than it was set for: in every state
    the page can reach, each pending timer is due at most 60000 ms from
    now. *)
Theorem cooldown_is_at_most_a_minute (sys : System) (d : Z) (key : jsstring) :
  reachable sys ->
  (d, key) ∈ timers (world sys) ->
  d <= clock (world sys) + 60000.
Proof.
  intros (sys0 & [_ Ht] & Hsteps). revert d key.
  induction Hsteps as [|sys1 sys2 sys3 Hs IH Hstep].
  - intros d key Hin. rewrite Ht in Hin. inversion Hin.
  - apply (timers_bounded_step _ _ Hstep). apply IH. exact Ht.
Qed.

(** ** What a run of the loop finds due *)

Ltac no_guard_read H :=
  repeat (apply elem_of_cons in H as [H|H]; [discriminate H|]);
  inversion H.

Lemma request_trace_no_guard contactId w r w' tr key :
  triggerGlobalAiReply_request contactId w = (r, w', tr) -> SsGet key ∉ tr.
Proof.
  unfold triggerGlobalAiReply_request, try_catch, bind. intros H Hin.
  destruct (configured w) eqn:Hc.
  - destruct (stored_contact contactId w) as [charData|] eqn:Hs.
    + rewrite (callGlobalAiApi_request_known _ _ _ Hc Hs) in H.
      injection H as _ _ <-. unfold lookup_reads, config_reads in Hin.
      simpl in Hin. no_guard_read Hin.
    + rewrite (callGlobalAiApi_request_unknown _ _ Hc Hs) in H.
      injection H as _ _ <-. unfold lookup_reads, config_reads in Hin.
      simpl in Hin. no_guard_read Hin.
  - rewrite (callGlobalAiApi_request_unconfigured _ _ Hc) in H.
    injection H as _ _ <-. unfold config_reads in Hin.
    simpl in Hin. no_guard_read Hin.
Qed.



Lemma scan_rest_length allSettings allChats contacts w s w' tr :
  scan allSettings allChats contacts w = (Normal (Some s), w', tr) ->
  (length (s_rest s) < length contacts)%nat.
Proof.
  intros H.
  destruct (scan_run allSettings allChats contacts w)
    as (fin & wt & tr' & Heq & _ & _ & _ & Hw).
  rewrite Heq in H. injection H as -> _ _.
  destruct Hw as (pre & contact & -> & _).
  rewrite length_app. simpl. lia.
Qed.

Lemma looked_at_cons contact rest r :
  (forall s, r = Some s -> (length (s_rest s) < length rest)%nat) ->
  looked_at (contact :: rest) r = contact :: looked_at rest r.
Proof.
  intros H. destruct r as [s|]; [|reflexivity].
  specialize (H s eq_refl). unfold looked_at. cbn [length].
  replace (S (length rest) - length (s_rest s))%nat
    with (S (length rest - length (s_rest s))) by lia.
  reflexivity.
Qed.

(** A run of the loop reads the guard flag of exactly the contacts it
    looked at and found due by the copies it was given, at the clock of the
    run. *)
Lemma scan_marks allSettings allChats contacts : forall w r w' tr,
  scan allSettings allChats contacts w = (Normal r, w', tr) ->
  forall key,
    SsGet key ∈ tr <->
    exists contact,
      contact ∈ looked_at contacts r
      /\ key = processingFlag (Contact.id contact)
      /\ due allSettings allChats (clock w) contact = true.
Proof.
  induction contacts as [|contact rest IH]; intros w r w' tr Hs key.
  { injection Hs as <- _ <-. split; [intros H; inversion H|].
    intros (c & Hc & _). inversion Hc. }
  assert (Hstep : forall w0 t0,
            clock w0 = clock w ->
            scan allSettings allChats rest w0 = (Normal r, w', t0) ->
            looked_at (contact :: rest) r = contact :: looked_at rest r
            /\ (SsGet key ∈ t0 <->
                exists c, c ∈ looked_at rest r
                  /\ key = processingFlag (Contact.id c)
                  /\ due allSettings allChats (clock w) c = true)).
  { intros w0 t0 Hck H0. split.
    - apply looked_at_cons. intros s ->. eapply scan_rest_length; eauto.
    - rewrite <- Hck. eapply IH; eauto. }
  destruct (due allSettings allChats (clock w) contact) eqn:Hdue.
  2: {
    rewrite (scan_skip _ _ _ _ _ Hdue) in Hs.
    destruct (Hstep w tr eq_refl Hs) as (-> & ->). split.
    - intros (c & Hc & Hk & Hd). exists c. split; [right; exact Hc|auto].
    - intros (c & Hc & Hk & Hd).
      apply elem_of_cons in Hc as [->|Hc]; [congruence|]. exists c. auto. }
  destruct (flag_set w (processingFlag (Contact.id contact))) eqn:Hflag.
  { rewrite (scan_held _ _ _ _ _ Hdue Hflag) in Hs.
    destruct (scan allSettings allChats rest w) as [[r2 w2] t2] eqn:E.
    injection Hs as -> -> <-.
    destruct (Hstep w t2 eq_refl E) as (-> & Hiff).
    rewrite elem_of_cons, Hiff. split.
    - intros [[= ->]|(c & Hc & Hk & Hd)].
      + exists contact. split; [left|auto].
      + exists c. split; [right; exact Hc|auto].
    - intros (c & Hc & Hk & Hd).
      apply elem_of_cons in Hc as [->|Hc]; [left; congruence|].
      right. exists c. auto. }
  set (w1 := with_sessionStorage
               (insert (processingFlag (Contact.id contact)) (js "true")) w).
  destruct (triggerGlobalAiReply_request_frame (Contact.id contact) w1)
    as ([req|] & trq & Hreq).
  { rewrite (scan_waits _ _ _ _ _ _ _ Hdue Hflag Hreq) in Hs.
    injection Hs as <- _ <-.
    assert (Hl : looked_at (contact :: rest)
                   (Some (mkSuspended allSettings allChats (Contact.id contact)
                            req rest)) = [contact]).
    { unfold looked_at. cbn [length s_rest].
      replace (S (length rest) - length rest)%nat with 1%nat by lia.
      reflexivity. }
    rewrite Hl. rewrite app_nil_r. split.
    - intros Hin. apply elem_of_cons in Hin as [[= ->]|Hin].
      + exists contact. split; [left|auto].
      + apply elem_of_cons in Hin as [Hin|Hin]; [discriminate Hin|].
        exfalso. exact (request_trace_no_guard _ _ _ _ _ _ Hreq Hin).
    - intros (c & Hc & Hk & Hd).
      apply list_elem_of_singleton in Hc as ->. rewrite Hk. left. }
  rewrite (scan_fails _ _ _ _ _ _ Hdue Hflag Hreq) in Hs. fold w1 in Hs.
  destruct (scan allSettings allChats rest _) as [[r2 w2] t2] eqn:E.
  injection Hs as -> -> <-.
  destruct (Hstep _ t2 (eq_refl : clock (with_timers _ w1) = clock w) E)
    as (-> & Hiff).
  rewrite elem_of_cons, elem_of_cons, elem_of_app, elem_of_cons, Hiff. split.
  - intros [[= ->]|[Hin|[Hin|[Hin|(c & Hc & Hk & Hd)]]]];
      try discriminate Hin.
    + exists contact. split; [left|auto].
    + exfalso. exact (request_trace_no_guard _ _ _ _ _ _ Hreq Hin).
    + exists c. split; [right; exact Hc|auto].
  - intros (c & Hc & Hk & Hd).
    apply elem_of_cons in Hc as [->|Hc]; [left; congruence|].
    right. right. right. right. exists c. auto.
Qed.

Lemma tick_marks w r w' tr contactId :
  tick w = (Normal r, w', tr) ->
  marks_due tr contactId <->
  hidden w = false
  /\ exists contact,
       contact ∈ looked_at (loaded_contacts w) r
       /\ Contact.id contact = contactId
       /\ due (loaded_settings w) (stored_chats w) (clock w) contact = true.
Proof.
  intros Ht. unfold marks_due. destruct (hidden w) eqn:Hh.
  { rewrite (tick_hidden_run _ Hh) in Ht. injection Ht as _ _ <-.
    split; [intros H; inversion H|intros [H _]; discriminate H]. }
  rewrite (tick_visible _ Hh) in Ht.
  destruct (scan _ _ _ w) as [[r2 w2] t2] eqn:E. injection Ht as -> -> <-.
  unfold load_reads. simpl.
  rewrite !elem_of_cons, (scan_marks _ _ _ _ _ _ _ E). split.
  - intros [H|[H|[H|(c & Hc & Hk & Hd)]]]; try discriminate H.
    split; [reflexivity|]. exists c. apply processingFlag_inj in Hk. auto.
  - intros (_ & c & Hc & <- & Hd). right. right. right. exists c. auto.
Qed.



(** ** A run that was waiting decides on the copies it loaded *)

Lemma both_waiting_reachable : reachable both_waiting.
Proof.
  destruct after_first_tick_reachable as (sys0 & Hinit & Hsteps).
  exists sys0. split; [exact Hinit|].
  assert (Hc : clock (world after_first_tick) <= 315001)
    by (vm_compute; discriminate).
  assert (Ht : exists tr,
            tick (with_clock 315001 (world after_first_tick))
            = (Normal (Some second_run), world both_waiting, tr))
    by (eexists; vm_compute; reflexivity).
  destruct Ht as (tr & Ht).
  eapply steps_step; [eapply steps_step; [exact Hsteps|]|].
  - exact (step_time after_first_tick 315001 Hc).
  - exact (step_tick
             (mkSystem (with_clock 315001 (world after_first_tick))
                (running after_first_tick)) _ _ _ Ht).
Qed.

Lemma b_answered_reachable : reachable b_answered.
Proof.
  destruct both_waiting_reachable as (sys0 & Hinit & Hsteps).
  exists sys0. split; [exact Hinit|].
  assert (Hc : clock (world both_waiting) <= 316000)
    by (vm_compute; discriminate).
  assert (Hr : exists tr,
            resume second_run (response_with two_replies)
              (with_clock 316000 (world both_waiting))
            = (Normal None, world b_answered, tr))
    by (eexists; vm_compute; reflexivity).
  destruct Hr as (tr & Hr).
  eapply steps_step; [eapply steps_step; [exact Hsteps|]|].
  - exact (step_time both_waiting 316000 Hc).
  - exact (step_response
             (mkSystem (with_clock 316000 (world both_waiting))
                (running both_waiting))
             [first_run] second_run [] _ _ _ _ eq_refl Hr).
Qed.

Lemma b_released_reachable : reachable b_released.
Proof.
  destruct b_answered_reachable as (sys0 & Hinit & Hsteps).
  exists sys0. split; [exact Hinit|].
  assert (Hc : clock (world b_answered) <= 380000)
    by (vm_compute; discriminate).
  assert (Htm : timers (with_clock 380000 (world b_answered))
                = [] ++ (376000, processingFlag (js "b")) :: [])
    by (vm_compute; reflexivity).
  assert (Hd : 376000 <= clock (with_clock 380000 (world b_answered)))
    by (vm_compute; discriminate).
  eapply steps_step; [eapply steps_step; [exact Hsteps|]|].
  - exact (step_time b_answered 380000 Hc).
  - exact (step_timeout
             (mkSystem (with_clock 380000 (world b_answered))
                (running b_answered))
             [] 376000 (processingFlag (js "b")) [] Htm Hd).
Qed.

(** X22. A run that waited can answer a contact a second time.  The run of
    the first tick waits on [a] from 300001 to 380000; meanwhile a second
    tick has answered [b], and the cooldown of [b] is over.  Resumed, the
    first run finds [b] due by the transcript it loaded at 300001 and sets
    its flag, although the last message stored for [b] is by the assistant
    and [b] is not due by what is stored. *)
Theorem waiting_run_admits_answered_contact :
  exists sys s o r w' tr contact,
    reachable sys /\ s ∈ running sys
    /\ resume s o (world sys) = (Normal r, w', tr)
    /\ contact ∈ s_rest s
    /\ marks_due tr (Contact.id contact)
    /\ flag_set (world sys) (processingFlag (Contact.id contact)) = false
    /\ flag_set w' (processingFlag (Contact.id contact)) = true
    /\ (exists m,
          last (transcript (stored_chats w') (Contact.id contact)) = Some m
          /\ Message.role m = js "assistant")
    /\ due (loaded_settings w') (stored_chats w') (clock w') contact = false.
Proof.
  exists b_released, first_run, (response_with two_replies).
  eexists _, _, _. exists contact_b.
  split; [exact b_released_reachable|].
  split; [left|].
  split; [vm_compute; reflexivity|].
  split; [left|].
  split; [unfold marks_due; vm_compute; repeat constructor|].
  split; [vm_compute; reflexivity|].
  split; [vm_compute; reflexivity|].
  split; [eexists; split; vm_compute; reflexivity|].
  vm_compute. reflexivity.
Qed.

(** ** After a reply *)

Lemma due_after_assistant allSettings allChats now contact m :
  last (transcript allChats (Contact.id contact)) = Some m ->
  Message.role m = js "assistant" ->
  due allSettings allChats now contact = false.
Proof.
  intros Hl Hr. unfold due.
  destruct (allSettings !! Contact.id contact) as [st|]; [|reflexivity].
  destruct (Settings.proactive st); [|reflexivity].
  fold (transcript allChats (Contact.id contact)). rewrite Hl, Hr. reflexivity.
Qed.

(** X8. A delivered reply ends the idle period for every tick that comes
    after it: once a generation has appended at least one message, and as
    long as the stored transcript of the contact is the one the generation
    left, the contact is not due by the stored transcripts at any clock and
    under any settings, and a tick does not find it due. *)
Theorem delivered_reply_not_due (o : FetchOutcome) (rawReply : jsval)
    (contact : Contact.t) (w w2 : World) :
  callGlobalAiApi_response o = Normal rawReply ->
  parseReplies rawReply <> [] ->
  transcript (stored_chats w2) (Contact.id contact)
  = transcript
      (stored_chats (exec (triggerGlobalAiReply_resume (Contact.id contact) o) w))
      (Contact.id contact) ->
  (forall allSettings now, due allSettings (stored_chats w2) now contact = false)
  /\ (forall r w3 tr,
        tick w2 = (Normal r, w3, tr) -> ~ marks_due tr (Contact.id contact)).
Proof.
  intros Ho Hne Hsame.
  assert (Hlast : exists m,
            last (transcript (stored_chats w2) (Contact.id contact)) = Some m
            /\ Message.role m = js "assistant").
  { rewrite Hsame. unfold exec.
    rewrite (triggerGlobalAiReply_resume_Normal _ _ _ _ Ho).
    destruct (parseReplies rawReply) as [|c r]; [contradiction|].
    destruct (appendReplies_cons (Contact.id contact) c r w)
      as (w' & tr & Ha & _ & Ht & _).
    rewrite Ha; simpl. rewrite Ht.
    destruct (last_stamped (clock w) (draws w) c r) as (m & Hm & Hr).
    exists m. rewrite last_app, Hm. auto. }
  destruct Hlast as (m & Hm & Hr).
  split.
  - intros allSettings now. eapply due_after_assistant; eauto.
  - intros r w3 tr Ht Hmark.
    apply (tick_marks _ _ _ _ _ Ht) in Hmark as (_ & c & _ & Hid & Hd).
    rewrite (due_after_assistant _ _ _ c m) in Hd; [discriminate| |exact Hr].
    rewrite Hid. exact Hm.
Qed.

(** ** Instances of the further properties *)

Lemma first_request_run :
  callGlobalAiApi_request (js "a") two_due
  = (Normal first_request, two_due,
     lookup_reads ++ [LsGet (js "user_persona"); LsGet (js "temperature")]).
Proof. vm_compute. reflexivity. Qed.

Lemma unconfigured_tick_run :
  exists tr, tick unconfigured = (Normal None, world unconfigured_cooling, tr).
Proof. eexists. vm_compute. reflexivity. Qed.

Lemma unconfigured_cooling_reachable : reachable unconfigured_cooling.
Proof.
  exists (mkSystem unconfigured []). split; [split; reflexivity|].
  destruct unconfigured_tick_run as (tr & Ht).
  eapply steps_step; [apply steps_refl|].
  exact (step_tick (mkSystem unconfigured []) _ _ _ Ht).
Qed.

Lemma increment_clear_commute_witness :
  exec (clearUnreadCount (js "b")) (exec (incrementUnreadCount (js "a") (Some 2)) two_due)
  = exec (incrementUnreadCount (js "a") (Some 2)) (exec (clearUnreadCount (js "b")) two_due).
Proof.
  apply (increment_clear_commute (js "a") (js "b") 2 two_due).
  intros H. vm_compute in H. discriminate.
Defined.

Lemma generation_keeps_counts_positive_witness :
  positive_ledger
    (exec (triggerGlobalAiReply_resume (js "a") (response_with two_replies))
       (with_ledger (<[js "a" := 2]> ∅) two_due)).
Proof.
  apply (generation_keeps_counts_positive (js "a") (response_with two_replies)
           (with_ledger (<[js "a" := 2]> ∅) two_due)).
  intros c n. unfold ledger, with_ledger; simpl.
  rewrite lookup_insert. case_decide.
  - intros [= <-]. lia.
  - rewrite lookup_empty. discriminate.
Defined.

Lemma blank_replies_write_nothing_witness :
  triggerGlobalAiReply_resume (js "a") (response_with blank_replies) two_due
  = (Normal tt, two_due, []).
Proof.
  apply (blank_replies_write_nothing (js "a") (response_with blank_replies)
           blank_replies
           (JObj [(js "replies", JArr [JStr []; JStr (js "  ")])])
           [JStr []; JStr (js "  ")] two_due).
  - vm_compute. reflexivity.
  - vm_compute. reflexivity.
  - vm_compute. reflexivity.
  - repeat constructor.
Defined.


Lemma delivered_reply_not_due_witness :
  due (loaded_settings two_due)
    (stored_chats
       (exec (triggerGlobalAiReply_resume (Contact.id contact_a)
                (response_with two_replies)) two_due))
    900000 contact_a = false.
Proof.
  apply (proj1 (delivered_reply_not_due (response_with two_replies)
                  (Some (JStr two_replies)) contact_a two_due
                  (exec (triggerGlobalAiReply_resume (Contact.id contact_a)
                           (response_with two_replies)) two_due)
                  ltac:(vm_compute; reflexivity)
                  ltac:(vm_compute; discriminate)
                  eq_refl)).
Defined.

Lemma request_goes_out_or_throws_witness :
  Precise.callGlobalAiApi_request (js "constructor") named_constructor
  = (Throw TypeError, named_constructor,
     lookup_reads ++ [LsGet (js "user_persona")]).
Proof.
  apply (proj1 (proj2 (proj2 (request_goes_out_or_throws (js "constructor")
                                named_constructor)))
           (Contact.mk (js "constructor") (Some (js "Con")) None None)).
  - vm_compute. reflexivity.
  - vm_compute. reflexivity.
  - vm_compute. reflexivity.
  - vm_compute. reflexivity.
Defined.

Lemma request_address_witness :
  exists endpoint key,
    apiUrl (localStorage two_due) = Some endpoint /\ endpoint <> []
    /\ apiKey (localStorage two_due) = Some key /\ key <> []
    /\ includes (js "/chat/completions") (Request.url first_request) = true
    /\ (includes (js "/chat/completions") endpoint = true ->
        Request.url first_request = endpoint)
    /\ (includes (js "/chat/completions") endpoint = false ->
        Request.url first_request
        = strip_trailing_slash endpoint ++ js "/chat/completions")
    /\ Request.authorization first_request = js "Bearer " ++ key.
Proof.
  exact (request_address (js "a") two_due two_due first_request _ first_request_run).
Defined.

Lemma request_history_window_witness :
  (length (Request.history first_request) <= 15)%nat
  /\ length (Request.history first_request)
     = Nat.min 15 (length (transcript (stored_chats two_due) (js "a")))
  /\ exists older,
       map (fun m => (Message.role m, Message.content m))
         (transcript (stored_chats two_due) (js "a"))
       = map (fun m => (Message.role m, Message.content m)) older
         ++ Request.history first_request
       /\ ((length (transcript (stored_chats two_due) (js "a")) <= 15)%nat ->
           older = []).
Proof.
  exact (request_history_window (js "a") two_due two_due first_request _
           first_request_run).
Defined.

Lemma refusal_reason_witness :
  callGlobalAiApi_response
    (Response false (js "Too Many Requests") (Normal (JObj refusal_body)))
  = Throw (Error (js "quota exceeded")).
Proof.
  apply (proj1 (proj2 (refusal_reason (js "Too Many Requests") refusal_body))
           [(js "message", JStr (js "quota exceeded"))] (js "quota exceeded")).
  - vm_compute. reflexivity.
  - vm_compute. reflexivity.
  - vm_compute. discriminate.
Defined.

Lemma expected_body_gives_content_witness :
  exists ms ms1 rest ms2 content,
    JObj [(js "choices",
           JArr [JObj [(js "message", JObj [(js "content", JStr two_replies)])]])]
    = JObj ms
    /\ JS.lookup_member (js "choices") ms = Some (JArr (JObj ms1 :: rest))
    /\ JS.lookup_member (js "message") ms1 = Some (JObj ms2)
    /\ JS.lookup_member (js "content") ms2 = Some (JStr content)
    /\ callGlobalAiApi_response (response_with two_replies)
       = Normal (Some (JStr content)).
Proof.
  apply (expected_body_gives_content (js "OK")
           (JObj [(js "choices",
                   JArr [JObj [(js "message",
                                JObj [(js "content", JStr two_replies)])]])])).
  vm_compute. reflexivity.
Defined.

Lemma handler_only_adds_to_guard_witness :
  localStorage (world after_first_tick) = localStorage two_due
  /\ clock (world after_first_tick) = clock two_due
  /\ hidden (world after_first_tick) = hidden two_due
  /\ (forall key, flag_set two_due key = true ->
        sessionStorage (world after_first_tick) !! key = sessionStorage two_due !! key)
  /\ exists added,
       timers (world after_first_tick) = timers two_due ++ added
       /\ Forall (fun t => t.1 = clock two_due + 60000
                           /\ flag_set two_due t.2 = false
                           /\ flag_set (world after_first_tick) t.2 = true) added.
Proof.
  destruct first_tick_run as (tr & Ht).
  exact (proj1 (handler_only_adds_to_guard two_due) _ _ _ Ht).
Defined.

Lemma handler_admits_only_due_witness :
  hidden two_due = false
  /\ exists contact,
       contact ∈ loaded_contacts two_due
       /\ processingFlag (js "a") = processingFlag (Contact.id contact)
       /\ due (loaded_settings two_due) (stored_chats two_due) (clock two_due)
            contact = true.
Proof.
  destruct first_tick_run as (tr & Ht).
  apply (proj1 (handler_admits_only_due two_due (processingFlag (js "a")))
           (Some first_run) (world after_first_tick) tr Ht).
  - vm_compute. reflexivity.
  - vm_compute. reflexivity.
Defined.


Lemma finished_run_covers_every_due_witness :
  flag_set (world unconfigured_cooling) (processingFlag (Contact.id contact_b)) = true.
Proof.
  destruct unconfigured_tick_run as (tr & Ht).
  apply (proj1 (finished_run_covers_every_due unconfigured) _ tr contact_b).
  - reflexivity.
  - exact Ht.
  - right. left.
  - vm_compute. reflexivity.
Defined.


Lemma timer_releases_its_contact_witness :
  exists w2 tr,
    tryAdmit (js "a")
      (with_timers (fun _ => [] ++ [(360001, processingFlag (js "b"))])
         (with_sessionStorage (delete (processingFlag (js "a")))
            (world unconfigured_cooling)))
    = (Normal true, w2, tr).
Proof.
  apply (proj2 (proj2 (proj2
           (timer_releases_its_contact unconfigured_cooling []
              [(360001, processingFlag (js "b"))] 360001 (processingFlag (js "a"))
              unconfigured_cooling_reachable eq_refl)))).
  reflexivity.
Defined.

Lemma orphan_flag_is_never_released_witness :
  flag_set (with_clock 900000 (world left_behind)) (processingFlag (js "a")) = true.
Proof.
  apply (orphan_flag_is_never_released left_behind
           (mkSystem (with_clock 900000 (world left_behind)) (running left_behind))
           (processingFlag (js "a"))).
  - split; reflexivity.
  - vm_compute. reflexivity.
  - eapply steps_step; [apply steps_refl|].
    apply (step_time left_behind 900000). vm_compute. discriminate.
Defined.

Lemma cooldown_is_at_most_a_minute_witness :
  360001 <= clock (world unconfigured_cooling) + 60000.
Proof.
  apply (cooldown_is_at_most_a_minute unconfigured_cooling 360001
           (processingFlag (js "a")) unconfigured_cooling_reachable).
  left.
Defined.


Lemma clear_then_increments_witness :
  Precise.unread
    (Precise.increments [(js "a", 2); (js "b", 1); (js "a", 3)]
       (Precise.clearUnreadCount (js "a") (Some {[ js "a" := Precise.Num 7 ]})))
    (js "a")
  = Precise.Own (Precise.Num (total_for (js "a")
                                [(js "a", 2); (js "b", 1); (js "a", 3)])).
Proof.
  apply (clear_then_increments (js "a")).
  - vm_compute. reflexivity.
  - repeat constructor; simpl; lia.
  - vm_compute. discriminate.
Defined.

